(** * kagent-memory: the fixed-size chunker and the memory service

    A shallow embedding of [kagent_memory/chunking/fixed_size.py] and
    [kagent_memory/service/memory_service.py], and the properties the
    specification states about them.

    Python values are modelled as follows.
    - [int] is [Z] (unbounded); [//] is [Z.div], which floors like Python.
    - [str] is a list of Unicode code points ([N]); [len], slicing,
      [str.rfind] and [str.strip] are written out below.
    - [dict] is a finite map [gmap str pyval]; [{**a, **b, k: v}] becomes
      inserts over a left-biased union.
    - a raised exception is an [outcome] that is not [Returns]. *)

From Stdlib Require Import ZArith List String Ascii DecimalString Floats Lia.
From stdpp Require Import base option list gmap.

Open Scope Z_scope.

(* ===================================================================== *)
(** * Part I. Definitions                                                *)
(* ===================================================================== *)

(** ** Python strings *)

Definition str := list N.

(** An ASCII literal as a Python string. *)
Definition py (s : string) : str :=
  (fun a => N_of_ascii a) <$> list_ascii_of_string s.
Arguments py s%_string.

Definition len {A} (s : list A) : Z := Z.of_nat (length s).

(** [not s]: the empty string is the only falsy one. *)
Definition is_empty {A} (s : list A) : bool :=
  match s with [] => true | _ :: _ => false end.

(** [Py_UNICODE_ISSPACE]: the code points [str.strip()] removes. *)
Definition py_isspace (c : N) : bool :=
  ((9 <=? c) && (c <=? 13) || (28 <=? c) && (c <=? 32)
   || (c =? 133) || (c =? 160) || (c =? 5760)
   || (8192 <=? c) && (c <=? 8202)
   || (c =? 8232) || (c =? 8233) || (c =? 8239) || (c =? 8287)
   || (c =? 12288))%N.

Fixpoint lstrip (s : str) : str :=
  match s with
  | [] => []
  | c :: s' => if py_isspace c then lstrip s' else s
  end.

Definition rstrip (s : str) : str := reverse (lstrip (reverse s)).

(** [s.strip()] *)
Definition strip (s : str) : str := rstrip (lstrip s).

(** A slice bound as Python normalises it: a negative bound counts from
    the end, and both are clamped to [0, len]. *)
Definition slice_bound (n i : Z) : Z :=
  if i <? 0 then Z.max (i + n) 0 else Z.min i n.

(** [s[a:b]] *)
Definition slice {A} (s : list A) (a b : Z) : list A :=
  let a' := slice_bound (len s) a in
  let b' := slice_bound (len s) b in
  take (Z.to_nat (b' - a')) (drop (Z.to_nat a') s).

Fixpoint startswith (s sub : str) : bool :=
  match sub, s with
  | [], _ => true
  | _ :: _, [] => false
  | p :: sub', c :: s' => (p =? c)%N && startswith s' sub'
  end.

(** [rfind_from s sub i]: the highest index of an occurrence of [sub] in
    [s], where the head of [s] has index [i]; [-1] when there is none. *)
Fixpoint rfind_from (s sub : str) (i : Z) : Z :=
  match s with
  | [] => if startswith [] sub then i else -1
  | _ :: s' =>
      let r := rfind_from s' sub (i + 1) in
      if 0 <=? r then r else if startswith s sub then i else -1
  end.

(** [s.rfind(sub)] *)
Definition rfind (s sub : str) : Z := rfind_from s sub 0.

(** ** chunking/base.py *)

Record Chunk := mkChunk {
  chunk_text : str;
  chunk_start : Z;
  chunk_end : Z;
  chunk_index : Z
}.

(** ** chunking/fixed_size.py *)

(** The exceptions met in the code.  [ValidationError] is pydantic's, as
    the models of the Qdrant client raise it; [CancelledError] is
    [asyncio.CancelledError], raised at an [await] whose task is
    cancelled. *)
Inductive exn :=
| ValueError (msg : string)
| UnicodeEncodeError
| IndexError
| TypeError
| CollaboratorError (msg : string)
| ValidationError
| CancelledError.

(** [isinstance(e, Exception)]: [asyncio.CancelledError] derives from
    [BaseException] only, every other exception here from [Exception]. *)
Definition is_Exception (e : exn) : bool :=
  match e with
  | CancelledError => false
  | _ => true
  end.

(** [". "], [".\n"], ["\n\n"], ["\n"], [" "] *)
Definition SENTENCE_SEPARATORS : list str :=
  [ [46; 32]; [46; 10]; [10; 10]; [10]; [32] ]%N.

Record FixedSizeChunker := mkFixedSizeChunker {
  chunk_size : Z;
  overlap : Z
}.

(** [FixedSizeChunker.__init__] *)
Definition FixedSizeChunker_init (chunk_size overlap : Z)
  : exn + FixedSizeChunker :=
  if chunk_size <=? 0 then inl (ValueError "chunk_size must be positive")
  else if overlap <? 0 then inl (ValueError "overlap must be non-negative")
  else if overlap >=? chunk_size
       then inl (ValueError "overlap must be less than chunk_size")
  else inr (mkFixedSizeChunker chunk_size overlap).

(** The [for sep in SENTENCE_SEPARATORS] loop of [_find_break_point]. *)
Fixpoint try_separators (seps : list str) (search_region : str)
    (min_chunk_size start end_ : Z) : Z :=
  match seps with
  | [] => end_
  | sep :: seps' =>
      let last_sep := rfind search_region sep in
      if min_chunk_size <? last_sep then start + last_sep + len sep
      else try_separators seps' search_region min_chunk_size start end_
  end.

Definition _find_break_point (self : FixedSizeChunker) (text : str)
    (start end_ : Z) : Z :=
  let search_region := slice text start end_ in
  let min_chunk_size := chunk_size self / 2 in
  try_separators SENTENCE_SEPARATORS search_region min_chunk_size start end_.

(** The end of the window that starts at [start]: the tentative end,
    moved to a break point when it is not the end of the text. *)
Definition window_end (self : FixedSizeChunker) (text : str) (start : Z) : Z :=
  let end_ := Z.min (start + chunk_size self) (len text) in
  if end_ <? len text then _find_break_point self text start end_ else end_.

(** The variables of the [while] loop of [chunk]. *)
Record loop_state := mkLoop {
  cur_start : Z;
  cur_index : Z;
  cur_chunks : list Chunk
}.

Inductive step := Break (st : loop_state) | Continue (st : loop_state).

(** One pass through the body of the [while] loop. *)
Definition loop_body (self : FixedSizeChunker) (text : str) (st : loop_state)
  : step :=
  let start := cur_start st in
  let end_ := window_end self text start in
  let chunk_text := strip (slice text start end_) in
  let '(chunks, index) :=
    match chunk_text with
    | [] => (cur_chunks st, cur_index st)
    | _ :: _ =>
        (cur_chunks st ++ [mkChunk chunk_text start end_ (cur_index st)],
         cur_index st + 1)
    end in
  if len text <=? end_ then Break (mkLoop start index chunks)
  else
    let new_start := end_ - overlap self in
    let new_start := if new_start <=? start then end_ else new_start in
    Continue (mkLoop new_start index chunks).

(** The [while start < len(text)] loop, run for at most [fuel] passes;
    [None] when the fuel runs out before the loop ends. *)
Fixpoint while_loop (fuel : nat) (self : FixedSizeChunker) (text : str)
    (st : loop_state) : option (list Chunk) :=
  if cur_start st <? len text then
    match fuel with
    | O => None
    | S fuel' =>
        match loop_body self text st with
        | Break st' => Some (cur_chunks st')
        | Continue st' => while_loop fuel' self text st'
        end
    end
  else Some (cur_chunks st).

Definition chunk_fuel (fuel : nat) (self : FixedSizeChunker) (text : str)
  : option (list Chunk) :=
  if is_empty text || is_empty (strip text) then Some []
  else while_loop fuel self text (mkLoop 0 0 []).

(** [FixedSizeChunker.chunk]: one pass per character is enough fuel
    for a valid configuration. *)
Definition chunk (self : FixedSizeChunker) (text : str)
  : option (list Chunk) :=
  chunk_fuel (length text) self text.

(** The configurations [__init__] accepts. *)
Definition valid_config (self : FixedSizeChunker) : Prop :=
  0 < chunk_size self /\ 0 <= overlap self < chunk_size self.

(** ** Python values and the runtime *)

#[warnings="-register-all"]
Inductive pyval : Type :=
| VNone
| VBool (b : bool)
| VInt (z : Z)
| VFloat (f : float)
| VStr (s : str)
| VList (l : list pyval)
| VDict (d : gmap str pyval).

(** How a call ends: with a value, with an exception, or never. *)
Inductive outcome (A : Type) : Type :=
| Returns (a : A)
| Raises (e : exn)
| Diverges.
Arguments Returns {A} a.
Arguments Raises {A} e.
Arguments Diverges {A}.

Definition outcome_bind {A B} (o : outcome A) (k : A -> outcome B) : outcome B :=
  match o with
  | Returns a => k a
  | Raises e => Raises e
  | Diverges => Diverges
  end.

(** What the service uses of the Python runtime and standard library,
    none of which is code of this repository: formatting a value inside
    an f-string (a [str] formats as itself), the order in which a [dict]
    yields its keys, SHA-256 as a hexadecimal digest, and the clock
    reading [datetime.now(UTC).isoformat()]. *)
Class PyRuntime := {
  format_value : pyval -> str;
  format_value_str : forall s, format_value (VStr s) = s;
  dict_keys : gmap str pyval -> list str;
  sha256_hexdigest : list N -> str;
  utcnow_isoformat : str
}.

(** UTF-8, as [str.encode()] produces it; a surrogate code point has no
    encoding. *)
Definition utf8_encode_char (c : N) : option (list N) :=
  (if c <? 128 then Some [c]
   else if c <? 2048 then Some [192 + c / 64; 128 + c mod 64]
   else if (55296 <=? c) && (c <=? 57343) then None
   else if c <? 65536
        then Some [224 + c / 4096; 128 + (c / 64) mod 64; 128 + c mod 64]
   else Some [240 + c / 262144; 128 + (c / 4096) mod 64;
              128 + (c / 64) mod 64; 128 + c mod 64])%N.

(** [s.encode()] *)
Fixpoint str_encode (s : str) : outcome (list N) :=
  match s with
  | [] => Returns []
  | c :: s' =>
      match utf8_encode_char c with
      | None => Raises UnicodeEncodeError
      | Some bytes =>
          outcome_bind (str_encode s') (fun rest => Returns (bytes ++ rest))
      end
  end.

(** [sep.join(parts)] *)
Fixpoint str_join (sep : str) (parts : list str) : str :=
  match parts with
  | [] => []
  | [p] => p
  | p :: parts' => p ++ sep ++ str_join sep parts'
  end.

(** [d.update(other)], the effect of [**other] in a dict display. *)
Definition dict_update (d other : gmap str pyval) : gmap str pyval := other ∪ d.

(** [if v: d[key] = v] for an optional string [v]. *)
Definition set_if_truthy (key : str) (v : option str) (d : gmap str pyval)
  : gmap str pyval :=
  match v with
  | Some (c :: s) => <[key := VStr (c :: s)]> d
  | Some [] | None => d
  end.

(** [d if d else None] *)
Definition dict_or_none (d : gmap str pyval) : option (gmap str pyval) :=
  match map_to_list d with
  | [] => None
  | _ :: _ => Some d
  end.

(** ** models.py *)

Record AddMemoryResponse := mkAddMemoryResponse {
  memory_ids : list str;
  chunks_created : Z
}.

Record MemorySearchRequest := mkMemorySearchRequest {
  req_query : str;
  req_user_id : option str;
  req_session_id : option str;
  req_agent_name : option str;
  req_top_k : Z;
  req_score_threshold : option float;
  req_filters : gmap str pyval
}.

Record MemorySearchResult := mkMemorySearchResult {
  content : str;
  metadata : gmap str pyval;
  score : float;
  memory_id : str
}.

Record MemorySearchResponse := mkMemorySearchResponse {
  results : list MemorySearchResult;
  query : str
}.

(** ** The collaborators: chunking/base.py, embeddings/base.py,
    vectordb/base.py *)

(** One result of [VectorStore.search]: a dict with the keys [id],
    [score], [content] and [metadata], as the interface documents it. *)
Record StoreHit := mkStoreHit {
  hit_id : str;
  hit_score : float;
  hit_content : str;
  hit_metadata : gmap str pyval
}.

Record Chunker := mkChunker {
  chunker_chunk : str -> outcome (list Chunk)
}.

Record EmbeddingProvider := mkEmbeddingProvider {
  embed : list str -> outcome (list (list float))
}.

Record VectorStore := mkVectorStore {
  store_add : list (list float) -> list str -> list (gmap str pyval) ->
              outcome (list str);
  store_search : list float -> Z -> option (gmap str pyval) -> option float ->
                 outcome (list StoreHit)
}.

(** [FixedSizeChunker] as a [Chunker]; running out of fuel stands for a
    loop that does not end. *)
Definition FixedSizeChunker_Chunker (self : FixedSizeChunker) : Chunker :=
  mkChunker (fun text =>
    match chunk self text with
    | Some chunks => Returns chunks
    | None => Diverges
    end).

(** ** service/memory_service.py *)

Record MemoryService := mkMemoryService {
  embeddings : EmbeddingProvider;
  store : VectorStore;
  chunker : Chunker
}.

(** A call the service makes on one of its collaborators. *)
Inductive call :=
| CallChunk (text : str)
| CallEmbed (texts : list str)
| CallStoreAdd (vectors : list (list float)) (documents : list str)
    (metadata : list (gmap str pyval))
| CallStoreSearch (vector : list float) (top_k : Z)
    (filters : option (gmap str pyval)) (score_threshold : option float).

(** A service method: it extends the log of collaborator calls and ends
    in an [outcome].  Each method calls each collaborator method at most
    once, so a collaborator is a function of its arguments. *)
Definition M (A : Type) : Type := list call -> outcome A * list call.

Definition ret {A} (a : A) : M A := fun log => (Returns a, log).

Definition raise {A} (e : exn) : M A := fun log => (Raises e, log).

Definition bind {A B} (m : M A) (k : A -> M B) : M B :=
  fun log =>
    match m log with
    | (Returns a, log') => k a log'
    | (Raises e, log') => (Raises e, log')
    | (Diverges, log') => (Diverges, log')
    end.

(** A value computed without a collaborator. *)
Definition lift {A} (o : outcome A) : M A := fun log => (o, log).

(** [await collaborator.method(...)]: the call is logged, then answered. *)
Definition await {A} (c : call) (answer : outcome A) : M A :=
  fun log => (answer, log ++ [c]).

(** The collaborator calls a method makes when it starts with [log]. *)
Definition calls_from {A} (log : list call) (m : M A) : list call :=
  drop (length log) (snd (m log)).

Notation "x <- m ;; k" := (bind m (fun x => k))
  (at level 100, m at next level, right associativity).

Section Service.
Context `{PyRuntime}.

(** [hashlib.sha256(content.encode()).hexdigest()[:16]] *)
Definition content_hash_of (content : str) : outcome str :=
  outcome_bind (str_encode content)
    (fun bytes => Returns (slice (sha256_hexdigest bytes) 0 16)).

(** The base metadata of [add_memory]. *)
Definition base_metadata_of (content_hash : str)
    (user_id session_id agent_name : option str) : gmap str pyval :=
  let base_metadata :=
    <[py "content_hash" := VStr content_hash]>
      (<[py "timestamp" := VStr utcnow_isoformat]> ∅) in
  let base_metadata := set_if_truthy (py "user_id") user_id base_metadata in
  let base_metadata := set_if_truthy (py "session_id") session_id base_metadata in
  set_if_truthy (py "agent_name") agent_name base_metadata.

(** The dict display [{**base_metadata, **metadata, "chunk_index": ...}]. *)
Definition chunk_meta_of (base_metadata metadata : gmap str pyval)
    (total : Z) (c : Chunk) : gmap str pyval :=
  <[py "total_chunks" := VInt total]>
    (<[py "chunk_end" := VInt (chunk_end c)]>
      (<[py "chunk_start" := VInt (chunk_start c)]>
        (<[py "chunk_index" := VInt (chunk_index c)]>
          (dict_update (dict_update ∅ base_metadata) metadata)))).

Definition add_memory (self : MemoryService) (content : str)
    (metadata : option (gmap str pyval))
    (user_id session_id agent_name : option str) : M AddMemoryResponse :=
  let metadata := default ∅ metadata in
  content_hash <- lift (content_hash_of content) ;;
  let base_metadata :=
    base_metadata_of content_hash user_id session_id agent_name in
  chunks <- await (CallChunk content) (chunker_chunk (chunker self) content) ;;
  if is_empty chunks then ret (mkAddMemoryResponse [] 0)
  else
    let chunk_texts := chunk_text <$> chunks in
    vectors <- await (CallEmbed chunk_texts)
                 (embed (embeddings self) chunk_texts) ;;
    let chunk_metadata :=
      chunk_meta_of base_metadata metadata (len chunks) <$> chunks in
    memory_ids <- await (CallStoreAdd vectors chunk_texts chunk_metadata)
                    (store_add (store self) vectors chunk_texts chunk_metadata) ;;
    ret (mkAddMemoryResponse memory_ids (len chunks)).

(** The filters [search_memory] builds from a request. *)
Definition search_filters (request : MemorySearchRequest) : gmap str pyval :=
  let filters := req_filters request in
  let filters := set_if_truthy (py "user_id") (req_user_id request) filters in
  let filters :=
    set_if_truthy (py "session_id") (req_session_id request) filters in
  set_if_truthy (py "agent_name") (req_agent_name request) filters.

Definition search_memory (self : MemoryService) (request : MemorySearchRequest)
  : M MemorySearchResponse :=
  query_vectors <- await (CallEmbed [req_query request])
                     (embed (embeddings self) [req_query request]) ;;
  query_vector <- match query_vectors with
                  | [] => raise IndexError
                  | v :: _ => ret v
                  end ;;
  let filters := search_filters request in
  let filters := dict_or_none filters in
  hits <- await (CallStoreSearch query_vector (req_top_k request) filters
                   (req_score_threshold request))
            (store_search (store self) query_vector (req_top_k request)
               filters (req_score_threshold request)) ;;
  ret (mkMemorySearchResponse
         ((fun r => mkMemorySearchResult (hit_content r) (hit_metadata r)
                      (hit_score r) (hit_id r)) <$> hits)
         (req_query request)).

(** [f"{author}: {value}"] *)
Definition author_line (author value : pyval) : str :=
  format_value author ++ py ": " ++ format_value value.

(** What [for part in parts] iterates over. *)
Definition py_iter (v : pyval) : outcome (list pyval) :=
  match v with
  | VList l => Returns l
  | VStr s => Returns ((fun c => VStr [c]) <$> s)
  | VDict d => Returns (VStr <$> dict_keys d)
  | VNone | VBool _ | VInt _ | VFloat _ => Raises TypeError
  end.

(** The lines one part of an ADK-style content adds. *)
Definition part_lines (author part : pyval) : list str :=
  match part with
  | VDict p =>
      match p !! py "text" with
      | Some text => [author_line author text]
      | None => []
      end
  | VStr _ => [author_line author part]
  | _ => []
  end.

(** The lines one event adds to [content_parts]. *)
Definition event_lines (event : pyval) : outcome (list str) :=
  match event with
  | VDict ev =>
      let author := default (VStr (py "unknown")) (ev !! py "author") in
      match ev !! py "content" with
      | None | Some VNone => Returns []
      | Some (VStr s) => Returns [author_line author (VStr s)]
      | Some (VDict c) =>
          let parts := default (VList []) (c !! py "parts") in
          outcome_bind (py_iter parts)
            (fun ps => Returns (concat (part_lines author <$> ps)))
      | Some _ => Returns []
      end
  | _ => Returns []
  end.

(** The [for event in events] loop. *)
Fixpoint collect_lines (events : list pyval) : outcome (list str) :=
  match events with
  | [] => Returns []
  | event :: events' =>
      outcome_bind (event_lines event) (fun lines =>
      outcome_bind (collect_lines events') (fun rest =>
      Returns (lines ++ rest)))
  end.

Definition add_session_to_memory (self : MemoryService)
    (session_id user_id : str) (events : list pyval) (app_name : option str)
  : M AddMemoryResponse :=
  content_parts <- lift (collect_lines events) ;;
  if is_empty content_parts then ret (mkAddMemoryResponse [] 0)
  else
    let full_content := str_join [10%N] content_parts in
    add_memory self full_content
      (Some {[ py "source" := VStr (py "session") ]})
      (Some user_id) (Some session_id) app_name.

End Service.

(** ** Specification-side definitions

    The following definitions state what the specification says, in its
    own words, for comparison with the code above. *)

(** A string of whitespace only (the empty string included). *)
Definition whitespace_only (s : str) : Prop :=
  Forall (fun c => py_isspace c = true) s.

(** [sub] occurs in [s] at offset [k]. *)
Definition occurs_at (s sub : str) (k : nat) : Prop :=
  exists pre post, s = pre ++ sub ++ post /\ length pre = k.

(** [off] is the offset of the last occurrence of [sub] in [s]. *)
Definition last_occurrence (s sub : str) (off : Z) : Prop :=
  0 <= off /\ occurs_at s sub (Z.to_nat off) /\
  forall k, occurs_at s sub k -> Z.of_nat k <= off.

(** A separator is accepted when its last occurrence in the search
    region lies beyond the minimum offset. *)
Definition accepted (search_region : str) (min_chunk_size : Z) (sep : str)
    (off : Z) : Prop :=
  last_occurrence search_region sep off /\ min_chunk_size < off.

(** What holds of a chunk that [chunk] emits for [text]. *)
Definition chunk_ok (self : FixedSizeChunker) (text : str) (c : Chunk) : Prop :=
  0 <= chunk_start c < chunk_end c /\ chunk_end c <= len text /\
  chunk_end c = window_end self text (chunk_start c) /\
  chunk_text c = strip (slice text (chunk_start c) (chunk_end c)) /\
  chunk_text c <> [] /\ len (chunk_text c) <= chunk_size self.

(** The indices are [0, 1, 2, ...] in the order of the list. *)
Definition indexed_in_order (cs : list Chunk) : Prop :=
  forall i c, cs !! i = Some c -> chunk_index c = Z.of_nat i.

(** A chunk starts strictly before every chunk that follows it. *)
Definition starts_increase (cs : list Chunk) : Prop :=
  forall i j a b, cs !! i = Some a -> cs !! j = Some b -> (i < j)%nat ->
    chunk_start a < chunk_start b.

Definition chunks_ok (self : FixedSizeChunker) (text : str)
    (cs : list Chunk) : Prop :=
  Forall (chunk_ok self text) cs /\ indexed_in_order cs /\ starts_increase cs.

(** What the loop maintains between passes. *)
Definition loop_inv (self : FixedSizeChunker) (text : str)
    (st : loop_state) : Prop :=
  0 <= cur_start st /\
  cur_index st = len (cur_chunks st) /\
  chunks_ok self text (cur_chunks st) /\
  Forall (fun c => chunk_start c < cur_start st) (cur_chunks st) /\
  (cur_chunks st = [] ->
   whitespace_only (take (Z.to_nat (cur_start st)) text)).

(** What the loop has established when it ends. *)
Definition result_ok (self : FixedSizeChunker) (text : str)
    (cs : list Chunk) : Prop :=
  chunks_ok self text cs /\ (cs = [] -> whitespace_only text).

(** A field that is present only for a non-null, non-empty string. *)
Definition optional_field (key : str) (v : option str) : gmap str pyval :=
  match v with
  | Some (c :: s) => {[ key := VStr (c :: s) ]}
  | Some [] | None => ∅
  end.

(** The base metadata: [timestamp] and [content_hash], plus the identity
    fields that are given. *)
Definition spec_base_metadata (timestamp content_hash : str)
    (user_id session_id agent_name : option str) : gmap str pyval :=
  optional_field (py "agent_name") agent_name ∪
  (optional_field (py "session_id") session_id ∪
   (optional_field (py "user_id") user_id ∪
    {[ py "timestamp" := VStr timestamp;
       py "content_hash" := VStr content_hash ]})).

(** The fields taken from a chunk and the number of chunks. *)
Definition chunk_fields (c : Chunk) (total : Z) : gmap str pyval :=
  {[ py "chunk_index" := VInt (chunk_index c);
     py "chunk_start" := VInt (chunk_start c);
     py "chunk_end" := VInt (chunk_end c);
     py "total_chunks" := VInt total ]}.

(** The union of maps listed from the earliest to the latest, a later
    map winning on a key both bind. *)
Definition union_later_wins (ms : list (gmap str pyval)) : gmap str pyval :=
  foldl (fun acc m => m ∪ acc) ∅ ms.

(** The lines one part of a content map emits, in the specification's
    words: a map with a [text] key, or a plain string, is usable. *)
Inductive part_emits `{PyRuntime} (author : pyval) : pyval -> list str -> Prop :=
| part_map_with_text p text :
    p !! py "text" = Some text ->
    part_emits author (VDict p)
      [format_value author ++ py ": " ++ format_value text]
| part_plain_string s :
    part_emits author (VStr s) [format_value author ++ py ": " ++ s]
| part_map_without_text p :
    p !! py "text" = None -> part_emits author (VDict p) []
| part_other part :
    (forall p, part <> VDict p) -> (forall s, part <> VStr s) ->
    part_emits author part [].

(** The lines one event emits, in the specification's words. *)
Inductive event_emits `{PyRuntime} : pyval -> list str -> Prop :=
| event_not_a_map event :
    (forall ev, event <> VDict ev) -> event_emits event []
| event_content_absent ev :
    ev !! py "content" = None \/ ev !! py "content" = Some VNone ->
    event_emits (VDict ev) []
| event_content_string ev s :
    ev !! py "content" = Some (VStr s) ->
    event_emits (VDict ev)
      [format_value (default (VStr (py "unknown")) (ev !! py "author"))
       ++ py ": " ++ s]
| event_content_parts ev c parts liness :
    ev !! py "content" = Some (VDict c) ->
    c !! py "parts" = Some (VList parts) ->
    Forall2 (part_emits (default (VStr (py "unknown")) (ev !! py "author")))
      parts liness ->
    event_emits (VDict ev) (concat liness).

(** The lines of an event in the cases the specification does not
    word.  A content that is neither null, a string nor a map emits
    nothing, and so does a content map without [parts].  A [parts] that
    is a string is iterated character by character and one that is a map
    key by key, and each such item is a plain-string part. *)
Inductive event_emits_unworded `{PyRuntime} : pyval -> list str -> Prop :=
| event_content_other ev content :
    ev !! py "content" = Some content ->
    content <> VNone -> (forall s, content <> VStr s) ->
    (forall c, content <> VDict c) ->
    event_emits_unworded (VDict ev) []
| event_content_without_parts ev c :
    ev !! py "content" = Some (VDict c) ->
    c !! py "parts" = None ->
    event_emits_unworded (VDict ev) []
| event_parts_string ev c s liness :
    ev !! py "content" = Some (VDict c) ->
    c !! py "parts" = Some (VStr s) ->
    Forall2 (part_emits (default (VStr (py "unknown")) (ev !! py "author")))
      ((fun ch => VStr [ch]) <$> s) liness ->
    event_emits_unworded (VDict ev) (concat liness)
| event_parts_map ev c d liness :
    ev !! py "content" = Some (VDict c) ->
    c !! py "parts" = Some (VDict d) ->
    Forall2 (part_emits (default (VStr (py "unknown")) (ev !! py "author")))
      (VStr <$> dict_keys d) liness ->
    event_emits_unworded (VDict ev) (concat liness).

(** The lines of an event, worded by the specification or not. *)
Definition event_yields `{PyRuntime} (event : pyval) (lines : list str) : Prop :=
  event_emits event lines \/ event_emits_unworded event lines.

(** The filters of a search as the specification words them: an
    identity value is added whenever it is not null. *)
Definition set_if_not_null (key : str) (v : option str) (d : gmap str pyval)
  : gmap str pyval :=
  match v with
  | Some s => <[key := VStr s]> d
  | None => d
  end.

Definition spec_search_filters (request : MemorySearchRequest)
  : gmap str pyval :=
  set_if_not_null (py "agent_name") (req_agent_name request)
    (set_if_not_null (py "session_id") (req_session_id request)
       (set_if_not_null (py "user_id") (req_user_id request)
          (req_filters request))).

(** The identity value a search request gives for a filter key, when it
    is neither null nor empty. *)
Definition identity_filter (request : MemorySearchRequest) (key : str)
  : option str :=
  let given (v : option str) :=
    match v with Some (c :: s) => Some (c :: s) | Some [] | None => None end in
  if decide (key = py "agent_name") then given (req_agent_name request)
  else if decide (key = py "session_id") then given (req_session_id request)
  else if decide (key = py "user_id") then given (req_user_id request)
  else None.

(** ** Collaborators for the examples *)

(** A runtime in which a value that is not a string formats as [?], a
    dict yields its keys in the order of the map, every digest is sixty
    four zeros and the clock stands still. *)
Definition example_runtime : PyRuntime := {|
  format_value v := match v with VStr s => s | _ => py "?" end;
  format_value_str s := eq_refl;
  dict_keys d := (map_to_list d).*1;
  sha256_hexdigest _ := replicate 64 48%N;
  utcnow_isoformat := py "2026-01-01T00:00:00+00:00"
|}.

(** [MockEmbeddingProvider] of [tests/conftest.py]: the vector
    [[0.1] * dimension] for every text. *)
Definition MockEmbeddingProvider (dimension : nat) : EmbeddingProvider :=
  mkEmbeddingProvider
    (fun texts =>
       Returns ((fun _ => replicate dimension 0x1.999999999999ap-4%float)
                  <$> texts)).

(** [f"mock-{i}"] *)
Definition mock_id (i : nat) : str :=
  py "mock-" ++ py (NilEmpty.string_of_uint (Nat.to_uint i)).

(** [MockVectorStore] of [tests/conftest.py] as the fixture makes it,
    with its counter at zero and no data: [add], called without ids as
    the service calls it, numbers one id for each of
    [zip(vectors, documents, metadata)] from [mock-0], and [search]
    finds nothing. *)
Definition MockVectorStore : VectorStore :=
  mkVectorStore
    (fun vectors documents metadata =>
       Returns (mock_id <$>
                seq 0 (Nat.min (length vectors)
                         (Nat.min (length documents) (length metadata)))))
    (fun vector top_k filters score_threshold => Returns []).

(** A store that answers the same ids whatever it is given. *)
Definition ConstantVectorStore (ids : list str) : VectorStore :=
  mkVectorStore (fun vectors documents metadata => Returns ids)
    (fun vector top_k filters score_threshold => Returns []).

(** The service of the [memory_service] fixture. *)
Definition example_service : MemoryService :=
  mkMemoryService (MockEmbeddingProvider 1536) MockVectorStore
    (FixedSizeChunker_Chunker (mkFixedSizeChunker 100 20)).

(** ** Further predicates on the chunks of a text *)

(** Position [p] of the text lies in the window of some chunk. *)
Definition covered (cs : list Chunk) (p : nat) : Prop :=
  exists c, c ∈ cs /\ chunk_start c <= Z.of_nat p < chunk_end c.

(** Every character before [bound] that is not whitespace is covered. *)
Definition covers_up_to (text : str) (cs : list Chunk) (bound : Z) : Prop :=
  forall p ch, Z.of_nat p < bound -> text !! p = Some ch ->
    py_isspace ch = false -> covered cs p.

(** A chunk shares at most [overlap] characters with any later chunk. *)
Definition overlap_bounded (self : FixedSizeChunker) (cs : list Chunk) : Prop :=
  forall i j a b, cs !! i = Some a -> cs !! j = Some b -> (i < j)%nat ->
    chunk_end a - chunk_start b <= overlap self.

(** What the loop maintains between passes, for coverage and overlap. *)
Definition cover_inv (self : FixedSizeChunker) (text : str)
    (st : loop_state) : Prop :=
  covers_up_to text (cur_chunks st) (cur_start st) /\
  Forall (fun c => chunk_end c - overlap self <= cur_start st) (cur_chunks st) /\
  overlap_bounded self (cur_chunks st).

(** A content map whose [parts] is not iterable. *)
Definition parts_not_iterable (event : pyval) : Prop :=
  exists ev c parts,
    event = VDict ev /\ ev !! py "content" = Some (VDict c) /\
    c !! py "parts" = Some parts /\
    (parts = VNone \/ (exists b, parts = VBool b) \/
     (exists z, parts = VInt z) \/ (exists f, parts = VFloat f)).

(** A provider that is unreachable. *)
Definition FailingEmbeddingProvider : EmbeddingProvider :=
  mkEmbeddingProvider (fun texts => Raises (CollaboratorError "unavailable")).

(** ** The rest of the service and of its collaborators

    The methods below call collaborator methods that the part above did
    not need; they log their calls in a log of their own. *)

(** A method that logs calls of type [C]. *)
Definition Eff (C A : Type) : Type := list C -> outcome A * list C.

Definition eff_ret {C A} (a : A) : Eff C A := fun log => (Returns a, log).

Definition eff_bind {C A B} (m : Eff C A) (k : A -> Eff C B) : Eff C B :=
  fun log =>
    match m log with
    | (Returns a, log') => k a log'
    | (Raises e, log') => (Raises e, log')
    | (Diverges, log') => (Diverges, log')
    end.

Definition eff_await {C A} (c : C) (answer : outcome A) : Eff C A :=
  fun log => (answer, log ++ [c]).

(** A computation that calls no collaborator. *)
Definition eff_lift {C A} (o : outcome A) : Eff C A := fun log => (o, log).

(** [try: m except Exception as e: handler]: an exception that is not an
    [Exception] is not caught. *)
Definition eff_catch {C A} (m : Eff C A) (handler : exn -> Eff C A) : Eff C A :=
  fun log =>
    match m log with
    | (Raises e, log') =>
        if is_Exception e then handler e log' else (Raises e, log')
    | r => r
    end.

(** *** service/memory_service.py: [delete_memories], [health_check],
    [initialize], [close] *)

(** The methods of [VectorStore] and [EmbeddingProvider] these use. *)
Record ServiceAdmin := mkServiceAdmin {
  store_initialize : outcome unit;
  store_delete : option (list str) -> option (gmap str pyval) -> outcome Z;
  store_health_check : outcome bool;
  store_close : outcome unit;
  embeddings_close : outcome unit
}.

Inductive admin_call :=
| CallStoreInitialize
| CallStoreDelete (ids : option (list str)) (filters : option (gmap str pyval))
| CallStoreHealthCheck
| CallStoreClose
| CallEmbeddingsClose.

(** The filters [delete_memories] builds. *)
Definition delete_filters (user_id : str) (session_id agent_name : option str)
  : gmap str pyval :=
  let filters := {[ py "user_id" := VStr user_id ]} in
  let filters := set_if_truthy (py "session_id") session_id filters in
  set_if_truthy (py "agent_name") agent_name filters.

Definition delete_memories (self : ServiceAdmin) (user_id : str)
    (session_id agent_name : option str) : Eff admin_call Z :=
  let filters := delete_filters user_id session_id agent_name in
  eff_await (CallStoreDelete None (Some filters))
    (store_delete self None (Some filters)).

Definition health_check (self : ServiceAdmin) : Eff admin_call bool :=
  eff_await CallStoreHealthCheck (store_health_check self).

Definition initialize (self : ServiceAdmin) : Eff admin_call unit :=
  eff_await CallStoreInitialize (store_initialize self).

Definition close (self : ServiceAdmin) : Eff admin_call unit :=
  eff_bind (eff_await CallEmbeddingsClose (embeddings_close self)) (fun _ =>
  eff_await CallStoreClose (store_close self)).

(** *** vectordb/qdrant.py *)

(** [qdrant_models.PointStruct] *)
Record PointStruct := mkPointStruct {
  point_id : str;
  point_vector : list float;
  point_payload : gmap str pyval
}.

(** A point of a query response: its id is an integer or a string, and
    the code allows for a missing score and a missing payload. *)
Record ScoredPoint := mkScoredPoint {
  sp_id : pyval;
  sp_score : option float;
  sp_payload : option (gmap str pyval)
}.

(** [Filter(must=[FieldCondition(key, MatchValue(value)), ...])]: the
    conditions as a map from key to the value to match; the order of the
    conditions is not recorded. *)
Inductive points_selector :=
| PointIdsList (points : list str)
| FilterSelector (must : gmap str pyval).

Inductive qdrant_call :=
| QGetCollections
| QCreateCollection (collection_name : str) (size : Z)
| QCreatePayloadIndex (collection_name field_name : str)
| QUpsert (collection_name : str) (points : list PointStruct)
| QQueryPoints (collection_name : str) (query : list float) (limit : Z)
    (query_filter : option (gmap str pyval)) (score_threshold : option float)
| QCount (collection_name : str) (count_filter : gmap str pyval)
| QDelete (collection_name : str) (selector : points_selector)
| QClose.

(** [AsyncQdrantClient], by what its methods answer. *)
Record QdrantClient := mkQdrantClient {
  get_collections : outcome (list str);
  create_collection : str -> Z -> outcome unit;
  create_payload_index : str -> str -> outcome unit;
  upsert : str -> list PointStruct -> outcome unit;
  query_points : str -> list float -> Z -> option (gmap str pyval) ->
                 option float -> outcome (list ScoredPoint);
  count : str -> gmap str pyval -> outcome Z;
  client_delete : str -> points_selector -> outcome unit;
  client_close : outcome unit
}.

Record QdrantVectorStore := mkQdrantVectorStore {
  collection_name : str;
  dimension : Z;
  _client : QdrantClient
}.

(** One result of [QdrantVectorStore.search]: the dict with the keys
    [id], [score], [content] and [metadata]. *)
Record QdrantResult := mkQdrantResult {
  result_id : str;
  result_score : float;
  result_content : pyval;
  result_metadata : gmap str pyval
}.

Definition is_VNone (v : pyval) : bool :=
  match v with VNone => true | _ => false end.

(** [qdrant_models.MatchValue(value=value)]: the client's model takes a
    bool, an int or a str, and its validation raises [ValidationError] for
    any other value. *)
Definition MatchValue (value : pyval) : outcome pyval :=
  match value with
  | VBool _ | VInt _ | VStr _ => Returns value
  | VNone | VFloat _ | VList _ | VDict _ => Raises ValidationError
  end.

(** The loop [for key, value in filters.items()] of [search] and of
    [delete]: one condition [FieldCondition(key, MatchValue(value))] for
    each value that is not [None].  The items come in the order of the
    map; the outcome is the same in any order. *)
Fixpoint build_conditions (items : list (str * pyval))
  : outcome (gmap str pyval) :=
  match items with
  | [] => Returns ∅
  | (key, value) :: items' =>
      if is_VNone value then build_conditions items'
      else
        outcome_bind (MatchValue value) (fun matched =>
        outcome_bind (build_conditions items') (fun conditions =>
        Returns (<[key := matched]> conditions)))
  end.

(** The [qdrant_filter] of [search]: no filter when [filters] is [None]
    or empty, or when no condition was built. *)
Definition search_filter (filters : option (gmap str pyval))
  : outcome (option (gmap str pyval)) :=
  match filters with
  | None => Returns None
  | Some filters =>
      match dict_or_none filters with
      | None => Returns None
      | Some filters =>
          outcome_bind (build_conditions (map_to_list filters))
            (fun conditions => Returns (dict_or_none conditions))
      end
  end.

(** [zip(ids, vectors, documents, metadata)] mapped to points with the
    payload [{"content": doc, **meta}]. *)
Fixpoint build_points (ids : list str) (vectors : list (list float))
    (documents : list str) (metadata : list (gmap str pyval))
  : list PointStruct :=
  match ids, vectors, documents, metadata with
  | id_ :: ids', vector :: vectors', doc :: documents', meta :: metadata' =>
      mkPointStruct id_ vector
        (dict_update {[ py "content" := VStr doc ]} meta)
      :: build_points ids' vectors' documents' metadata'
  | _, _, _, _ => []
  end.

(** [QdrantVectorStore.add]; [uuid4 i] is the [i]-th identifier that
    [str(uuid.uuid4())] generates during the call. *)
Definition qdrant_add (self : QdrantVectorStore) (uuid4 : nat -> str)
    (vectors : list (list float)) (documents : list str)
    (metadata : list (gmap str pyval)) (ids : option (list str))
  : Eff qdrant_call (list str) :=
  if is_empty vectors then eff_ret []
  else
    let ids := match ids with
               | None => uuid4 <$> seq 0 (length vectors)
               | Some ids => ids
               end in
    let points := build_points ids vectors documents metadata in
    eff_bind (eff_await (QUpsert (collection_name self) points)
                (upsert (_client self) (collection_name self) points))
      (fun _ => eff_ret ids).

Section Qdrant.
Context `{PyRuntime}.

(** The dict [search] builds from a point; [str(r.id)] is the id as
    [format_value] writes it. *)
Definition result_of_point (r : ScoredPoint) : QdrantResult :=
  mkQdrantResult
    (format_value (sp_id r))
    (default 0%float (sp_score r))
    (match sp_payload r with
     | None => VStr []
     | Some payload =>
         match dict_or_none payload with
         | None => VStr []
         | Some payload => default (VStr []) (payload !! py "content")
         end
     end)
    (delete (py "content") (default ∅ (sp_payload r))).

(** [QdrantVectorStore.search] *)
Definition qdrant_search (self : QdrantVectorStore) (vector : list float)
    (top_k : Z) (filters : option (gmap str pyval))
    (score_threshold : option float) : Eff qdrant_call (list QdrantResult) :=
  eff_bind (eff_lift (search_filter filters)) (fun qdrant_filter =>
  eff_bind
    (eff_await
       (QQueryPoints (collection_name self) vector top_k qdrant_filter
          score_threshold)
       (query_points (_client self) (collection_name self) vector top_k
          qdrant_filter score_threshold))
    (fun points => eff_ret (result_of_point <$> points))).

End Qdrant.

(** [QdrantVectorStore.delete] *)
Definition qdrant_delete (self : QdrantVectorStore) (ids : option (list str))
    (filters : option (gmap str pyval)) : Eff qdrant_call Z :=
  match ids with
  | Some (id_ :: ids') =>
      eff_bind
        (eff_await
           (QDelete (collection_name self) (PointIdsList (id_ :: ids')))
           (client_delete (_client self) (collection_name self)
              (PointIdsList (id_ :: ids'))))
        (fun _ => eff_ret (len (id_ :: ids')))
  | Some [] | None =>
      match filters with
      | None => eff_ret 0
      | Some filters =>
          match dict_or_none filters with
          | None => eff_ret 0
          | Some filters =>
              eff_bind (eff_lift (build_conditions (map_to_list filters)))
                (fun conditions =>
              match dict_or_none conditions with
              | None => eff_ret 0
              | Some conditions =>
                  eff_bind
                    (eff_await (QCount (collection_name self) conditions)
                       (count (_client self) (collection_name self) conditions))
                    (fun count_result =>
                  eff_bind
                    (eff_await
                       (QDelete (collection_name self)
                          (FilterSelector conditions))
                       (client_delete (_client self) (collection_name self)
                          (FilterSelector conditions)))
                    (fun _ => eff_ret count_result))
              end)
          end
      end
  end.

(** [QdrantVectorStore.health_check] *)
Definition qdrant_health_check (self : QdrantVectorStore)
  : Eff qdrant_call bool :=
  eff_catch
    (eff_bind (eff_await QGetCollections (get_collections (_client self)))
       (fun _ => eff_ret true))
    (fun _ => eff_ret false).

(** The [for field in ["user_id", "session_id", "agent_name"]] loop of
    [initialize]. *)
Fixpoint create_indexes (self : QdrantVectorStore) (fields : list str)
  : Eff qdrant_call unit :=
  match fields with
  | [] => eff_ret tt
  | field :: fields' =>
      eff_bind
        (eff_await (QCreatePayloadIndex (collection_name self) field)
           (create_payload_index (_client self) (collection_name self) field))
        (fun _ => create_indexes self fields')
  end.

(** [QdrantVectorStore.initialize]; its [except] clause logs and raises
    the exception again. *)
Definition qdrant_initialize (self : QdrantVectorStore) : Eff qdrant_call unit :=
  eff_bind (eff_await QGetCollections (get_collections (_client self)))
    (fun collections =>
       if bool_decide (collection_name self ∈ collections) then eff_ret tt
       else
         eff_bind
           (eff_await
              (QCreateCollection (collection_name self) (dimension self))
              (create_collection (_client self) (collection_name self)
                 (dimension self)))
           (fun _ =>
              create_indexes self
                [py "user_id"; py "session_id"; py "agent_name"])).

(** *** embeddings/openai.py *)

Definition MODEL_DIMENSIONS : gmap str Z :=
  {[ py "text-embedding-3-small" := 1536;
     py "text-embedding-3-large" := 3072;
     py "text-embedding-ada-002" := 1536 ]}.

(** [sub in s] for strings. *)
Definition str_contains (s sub : str) : bool := 0 <=? rfind s sub.

(** [AsyncOpenAI], by what [embeddings.create(model=, input=,
    dimensions=)] answers: the embeddings of [response.data], in order. *)
Record OpenAIClient := mkOpenAIClient {
  embeddings_create : str -> list str -> option Z -> outcome (list (list float))
}.

Inductive openai_call :=
| OEmbeddingsCreate (model : str) (input : list str) (dimensions : option Z).

Record OpenAIEmbeddingProvider := mkOpenAIEmbeddingProvider {
  model : str;
  _dimensions : option Z;
  _openai : OpenAIClient
}.

(** [OpenAIEmbeddingProvider.__init__] *)
Definition OpenAIEmbeddingProvider_init (client : OpenAIClient) (model : str)
    (dimensions : option Z) : OpenAIEmbeddingProvider :=
  let _dimensions :=
    match dimensions with
    | Some d => if negb (str_contains model (py "text-embedding-3")) then None
                else Some d
    | None => None
    end in
  mkOpenAIEmbeddingProvider model _dimensions client.

(** [OpenAIEmbeddingProvider.embed] *)
Definition openai_embed (self : OpenAIEmbeddingProvider) (texts : list str)
  : Eff openai_call (list (list float)) :=
  if is_empty texts then eff_ret []
  else
    let dimensions :=
      match _dimensions self with
      | Some d => if str_contains (model self) (py "text-embedding-3")
                  then Some d else None
      | None => None
      end in
    eff_bind
      (eff_await (OEmbeddingsCreate (model self) texts dimensions)
         (embeddings_create (_openai self) (model self) texts dimensions))
      (fun data => eff_ret data).

(** [OpenAIEmbeddingProvider.get_dimension] *)
Definition get_dimension (self : OpenAIEmbeddingProvider) : Z :=
  match _dimensions self with
  | Some d => d
  | None => default 1536 (MODEL_DIMENSIONS !! model self)
  end.

(** *** api/routes.py *)

(** The fields of [Settings] that [create_memory_service] reads besides
    the addresses and keys of the two clients. *)
Record Settings := mkSettings {
  qdrant_collection : str;
  embedding_model : str;
  embedding_dimensions : Z;
  settings_chunk_size : Z;
  settings_chunk_overlap : Z
}.

(** The parts of the service [create_memory_service] puts together. *)
Record ServiceParts := mkServiceParts {
  parts_embedding_provider : OpenAIEmbeddingProvider;
  parts_vector_store : QdrantVectorStore;
  parts_chunker : FixedSizeChunker
}.

Definition eff_raise {C A} (e : exn) : Eff C A := fun log => (Raises e, log).

(** [create_memory_service]; the two clients stand for what
    [AsyncOpenAI(api_key=...)] and [AsyncQdrantClient(url=..., api_key=...)]
    construct, and [service.initialize()] is the store's [initialize]. *)
Definition create_memory_service (settings : Settings) (openai_api_key : str)
    (openai_client : OpenAIClient) (qdrant_client : QdrantClient)
  : Eff qdrant_call ServiceParts :=
  if is_empty openai_api_key
  then eff_raise (ValueError "OPENAI_API_KEY environment variable is required")
  else
    let embedding_provider :=
      OpenAIEmbeddingProvider_init openai_client (embedding_model settings)
        (Some (embedding_dimensions settings)) in
    let vector_store :=
      mkQdrantVectorStore (qdrant_collection settings)
        (get_dimension embedding_provider) qdrant_client in
    match FixedSizeChunker_init (settings_chunk_size settings)
            (settings_chunk_overlap settings) with
    | inl e => eff_raise e
    | inr chunker =>
        eff_bind (qdrant_initialize vector_store) (fun _ =>
        eff_ret (mkServiceParts embedding_provider vector_store chunker))
    end.

(** [fastapi.HTTPException] *)
Inductive http_error := HTTPException (status_code : Z) (detail : string).

(** [get_memory_service], given the global [_memory_service]. *)
Definition get_memory_service (_memory_service : option MemoryService)
  : http_error + MemoryService :=
  match _memory_service with
  | None => inl (HTTPException 503 "Memory service not initialized")
  | Some service => inr service
  end.

Record AddMemoryRequest := mkAddMemoryRequest {
  add_content : str;
  add_metadata : gmap str pyval;
  add_user_id : option str;
  add_session_id : option str;
  add_agent_name : option str
}.

(** [a or b] for optional strings: [a] unless it is [None] or empty. *)
Definition py_or (a b : option str) : option str :=
  match a with
  | Some (_ :: _) => a
  | Some [] | None => b
  end.

(** [bool(a)] for an optional string. *)
Definition truthy (a : option str) : bool :=
  match a with
  | Some (_ :: _) => true
  | Some [] | None => false
  end.

Section Routes.
Context `{PyRuntime}.

(** The handler of [POST /api/memory]. *)
Definition route_add_memory (service : MemoryService)
    (request : AddMemoryRequest) (x_user_id : option str) : M AddMemoryResponse :=
  let user_id := py_or (add_user_id request) x_user_id in
  add_memory service (add_content request) (Some (add_metadata request))
    user_id (add_session_id request) (add_agent_name request).

End Routes.

(** The handler of [POST /api/memory/search]. *)
Definition route_search_memory (service : MemoryService)
    (request : MemorySearchRequest) (x_user_id : option str)
  : M MemorySearchResponse :=
  let request :=
    if truthy x_user_id && negb (truthy (req_user_id request))
    then mkMemorySearchRequest (req_query request) x_user_id
           (req_session_id request) (req_agent_name request)
           (req_top_k request) (req_score_threshold request)
           (req_filters request)
    else request in
  search_memory service request.

(** The user a request acts for, as both handlers resolve it: the
    body's [user_id] when it is not empty, else the [X-User-Id] header
    when it is not empty, else none. *)
Definition effective_user (body header : option str) : option str :=
  match body with
  | Some (c :: s) => Some (c :: s)
  | Some [] | None =>
      match header with
      | Some (c :: s) => Some (c :: s)
      | Some [] | None => None
      end
  end.

(* ===================================================================== *)
(** * Part II. Properties                                                *)
(* ===================================================================== *)

(** ** Python strings *)

Lemma len_nonneg {A} (s : list A) : 0 <= len s.
Proof. unfold len. lia. Qed.

Lemma len_app {A} (s t : list A) : len (s ++ t) = len s + len t.
Proof. unfold len. rewrite length_app. lia. Qed.

Lemma lstrip_suffix s : exists ws, s = ws ++ lstrip s /\ whitespace_only ws.
Proof.
  induction s as [|c s IH]; simpl.
  - exists []. split; [done | constructor].
  - destruct (py_isspace c) eqn:Hc.
    + destruct IH as (ws & Hs & Hws). exists (c :: ws). split.
      * simpl. congruence.
      * by constructor.
    + exists []. split; [done | constructor].
Qed.

Lemma lstrip_whitespace s : whitespace_only s -> lstrip s = [].
Proof.
  induction 1 as [|c s Hc _ IH]; simpl; [done |]. by rewrite Hc.
Qed.

Lemma lstrip_nil s : lstrip s = [] <-> whitespace_only s.
Proof.
  split; [| apply lstrip_whitespace].
  intros H. destruct (lstrip_suffix s) as (ws & Hs & Hws).
  rewrite H, app_nil_r in Hs. by subst.
Qed.

Lemma lstrip_length s : (length (lstrip s) <= length s)%nat.
Proof.
  destruct (lstrip_suffix s) as (ws & Hs & _).
  rewrite Hs at 2. rewrite length_app. lia.
Qed.

Lemma whitespace_only_reverse s : whitespace_only (reverse s) <-> whitespace_only s.
Proof. unfold whitespace_only. by rewrite Forall_reverse. Qed.

Lemma rstrip_nil s : rstrip s = [] <-> whitespace_only s.
Proof.
  unfold rstrip. rewrite <- whitespace_only_reverse, <- lstrip_nil.
  split; intros H.
  - apply (f_equal reverse) in H. by rewrite reverse_involutive in H.
  - by rewrite H.
Qed.

Lemma rstrip_length s : (length (rstrip s) <= length s)%nat.
Proof.
  unfold rstrip. rewrite length_reverse.
  etrans; [apply lstrip_length |]. by rewrite length_reverse.
Qed.

Lemma strip_nil s : strip s = [] <-> whitespace_only s.
Proof.
  unfold strip. rewrite rstrip_nil. split; intros H.
  - destruct (lstrip_suffix s) as (ws & Hs & Hws). rewrite Hs.
    by apply Forall_app.
  - apply lstrip_whitespace in H. rewrite H. constructor.
Qed.

Lemma strip_length s : len (strip s) <= len s.
Proof.
  unfold strip, len.
  pose proof (rstrip_length (lstrip s)). pose proof (lstrip_length s). lia.
Qed.

(** Slices with bounds in range. *)
Lemma slice_in_range {A} (s : list A) a b :
  0 <= a -> a <= b -> b <= len s ->
  slice s a b = take (Z.to_nat (b - a)) (drop (Z.to_nat a) s).
Proof.
  intros Ha Hab Hb. unfold slice, slice_bound.
  destruct (Z.ltb_spec a 0), (Z.ltb_spec b 0); try lia.
  by rewrite !Z.min_l by lia.
Qed.

Lemma slice_length {A} (s : list A) a b :
  0 <= a -> a <= b -> b <= len s -> len (slice s a b) = b - a.
Proof.
  intros Ha Hab Hb. rewrite slice_in_range by done.
  unfold len in *. rewrite length_take, length_drop. lia.
Qed.

Lemma take_slice {A} (s : list A) a b :
  0 <= a -> a <= b -> b <= len s ->
  take (Z.to_nat b) s = take (Z.to_nat a) s ++ slice s a b.
Proof.
  intros Ha Hab Hb. rewrite slice_in_range by done.
  replace (Z.to_nat b) with (Z.to_nat a + Z.to_nat (b - a))%nat by lia.
  by rewrite take_take_drop.
Qed.

(** ** [str.rfind] *)

Lemma startswith_prefix s sub : startswith s sub = true <-> sub `prefix_of` s.
Proof.
  revert s. induction sub as [|p sub IH]; intros s.
  - split; [intros _; apply prefix_nil | by destruct s].
  - destruct s as [|c s].
    + split; [done | intros H; by apply prefix_nil_inv in H].
    + cbn [startswith]. rewrite andb_true_iff, N.eqb_eq, IH. split.
      * intros [-> H]. by apply prefix_cons.
      * intros H. split; [by apply prefix_cons_inv_1 in H |
                          by apply prefix_cons_inv_2 in H].
Qed.

Lemma occurs_at_O s sub : occurs_at s sub 0 <-> sub `prefix_of` s.
Proof.
  split.
  - intros (pre & post & -> & Hk). apply nil_length_inv in Hk. subst.
    by exists post.
  - intros [post ->]. by exists [], post.
Qed.

Lemma occurs_at_S c s sub k : occurs_at (c :: s) sub (S k) <-> occurs_at s sub k.
Proof.
  split.
  - intros (pre & post & Hs & Hk). destruct pre as [|c' pre]; [done |].
    simpl in *. exists pre, post. split; congruence.
  - intros (pre & post & -> & Hk). exists (c :: pre), post.
    split; simpl; congruence.
Qed.

Lemma occurs_at_nil sub k : occurs_at [] sub k -> sub = [] /\ k = 0%nat.
Proof.
  intros (pre & post & Hs & Hk). symmetry in Hs.
  apply app_eq_nil in Hs as [-> Hs]. apply app_eq_nil in Hs as [-> _].
  by subst.
Qed.

Lemma occurs_at_bound s sub k :
  occurs_at s sub k -> Z.of_nat k + len sub <= len s.
Proof.
  intros (pre & post & -> & <-). unfold len. rewrite !length_app. lia.
Qed.

(** [rfind_from] either answers [-1], and then [sub] does not occur, or
    answers the index of the last occurrence. *)
Lemma rfind_from_spec sub s i :
  0 <= i ->
  let r := rfind_from s sub i in
  (r = -1 /\ forall k, ~ occurs_at s sub k) \/
  (i <= r /\ occurs_at s sub (Z.to_nat (r - i)) /\
   forall k, occurs_at s sub k -> i + Z.of_nat k <= r).
Proof.
  revert i. induction s as [|c s IH]; intros i Hi; cbn [rfind_from].
  - destruct sub as [|p sub]; simpl.
    + right. split; [lia |]. split.
      * replace (i - i) with 0 by lia. by exists [], [].
      * intros k Hk. apply occurs_at_nil in Hk as [_ ->]. lia.
    + left. split; [done |]. intros k Hk. by apply occurs_at_nil in Hk as [? _].
  - destruct (IH (i + 1)) as [[Hr Hnone] | (Hle & Hocc & Hmax)]; [lia | |].
    + rewrite Hr. change (0 <=? -1) with false. cbv iota.
      destruct (startswith (c :: s) sub) eqn:Hsw.
      * right. apply startswith_prefix, occurs_at_O in Hsw.
        split; [lia |]. split.
        -- by replace (i - i) with 0 by lia.
        -- intros [|k] Hk; [lia |]. apply occurs_at_S in Hk. by apply Hnone in Hk.
      * left. split; [done |]. intros [|k] Hk.
        -- apply occurs_at_O, startswith_prefix in Hk. congruence.
        -- apply occurs_at_S in Hk. by apply Hnone in Hk.
    + destruct (Z.leb_spec 0 (rfind_from s sub (i + 1))); [| lia].
      right. split; [lia |]. split.
      * replace (Z.to_nat (rfind_from s sub (i + 1) - i))
          with (S (Z.to_nat (rfind_from s sub (i + 1) - (i + 1)))) by lia.
        by apply occurs_at_S.
      * intros [|k] Hk; [lia |]. apply occurs_at_S, Hmax in Hk. lia.
Qed.

Lemma rfind_spec s sub :
  (rfind s sub = -1 /\ forall k, ~ occurs_at s sub k) \/
  last_occurrence s sub (rfind s sub).
Proof.
  unfold rfind, last_occurrence.
  destruct (rfind_from_spec sub s 0) as [? | (Hle & Hocc & Hmax)];
    [lia | by left |].
  right. split; [done |]. split.
  - by rewrite Z.sub_0_r in Hocc.
  - intros k Hk. apply Hmax in Hk. lia.
Qed.

(** The last occurrence, when there is one, is what [rfind] answers. *)
Lemma last_occurrence_rfind s sub off :
  last_occurrence s sub off -> rfind s sub = off.
Proof.
  intros (Hoff & Hocc & Hmax).
  destruct (rfind_spec s sub) as [[_ Hnone] | (Hr & Hocc' & Hmax')].
  - by apply Hnone in Hocc.
  - apply Hmax' in Hocc. apply Hmax in Hocc'. lia.
Qed.

Lemma rfind_range s sub :
  rfind s sub = -1 \/ (0 <= rfind s sub /\ rfind s sub + len sub <= len s).
Proof.
  destruct (rfind_spec s sub) as [[? _] | (Hr & Hocc & _)]; [by left |].
  right. split; [done |]. apply occurs_at_bound in Hocc. lia.
Qed.

(** ** [_find_break_point] *)

Lemma accepted_rfind region m sep off :
  accepted region m sep off -> rfind region sep = off /\ m < off.
Proof. intros [Hlast Hm]. split; [by apply last_occurrence_rfind | done]. Qed.

Lemma rfind_accepted region m sep :
  0 <= m -> m < rfind region sep -> accepted region m sep (rfind region sep).
Proof.
  intros Hm Hr. split; [| done].
  destruct (rfind_spec region sep) as [[? _] | ?]; [lia | done].
Qed.

Lemma try_separators_first seps region m start end_ pre sep post off :
  0 <= m ->
  seps = pre ++ sep :: post ->
  accepted region m sep off ->
  (forall sep' off', sep' ∈ pre -> ~ accepted region m sep' off') ->
  try_separators seps region m start end_ = start + off + len sep.
Proof.
  intros Hm -> Hacc. apply accepted_rfind in Hacc as [Hr Hoff].
  induction pre as [|sep' pre IH]; intros Hpre; simpl.
  - rewrite Hr. by destruct (Z.ltb_spec m off); [| lia].
  - destruct (Z.ltb_spec m (rfind region sep')) as [Hlt | _].
    + exfalso. apply (Hpre sep' (rfind region sep')); [left |].
      by apply rfind_accepted.
    + apply IH. intros s' o' Hin. apply Hpre. by right.
Qed.

Lemma try_separators_none seps region m start end_ :
  (forall sep off, sep ∈ seps -> ~ accepted region m sep off) ->
  0 <= m ->
  try_separators seps region m start end_ = end_.
Proof.
  intros Hnone Hm. induction seps as [|sep seps IH]; simpl; [done |].
  destruct (Z.ltb_spec m (rfind region sep)) as [Hlt | _].
  - exfalso. apply (Hnone sep (rfind region sep)); [left |].
    by apply rfind_accepted.
  - apply IH. intros s' o' Hin. apply Hnone. by right.
Qed.

Lemma try_separators_range seps region m start end_ :
  0 <= m -> start < end_ -> len region = end_ - start ->
  start < try_separators seps region m start end_ <= end_.
Proof.
  intros Hm Hlt Hlen. induction seps as [|sep seps IH]; simpl; [lia |].
  destruct (Z.ltb_spec m (rfind region sep)) as [Hr | _]; [| done].
  destruct (rfind_range region sep) as [? | [? ?]]; [lia |].
  pose proof (len_nonneg sep). lia.
Qed.

Lemma half_nonneg n : 0 < n -> 0 <= n / 2.
Proof. intros. apply Z.div_pos; lia. Qed.

(** The window that starts inside the text is not empty and ends within
    both the text and [chunk_size] characters. *)
Lemma window_end_range self text start :
  valid_config self -> 0 <= start < len text ->
  start < window_end self text start <= len text /\
  window_end self text start <= start + chunk_size self.
Proof.
  intros [Hcs Hov] Hstart. unfold window_end, _find_break_point.
  destruct (Z.ltb_spec (Z.min (start + chunk_size self) (len text)) (len text));
    [| lia].
  pose proof (try_separators_range SENTENCE_SEPARATORS
    (slice text start (Z.min (start + chunk_size self) (len text)))
    (chunk_size self / 2) start
    (Z.min (start + chunk_size self) (len text))) as Hr.
  rewrite slice_length in Hr by lia.
  specialize (Hr (half_nonneg _ Hcs)). lia.
Qed.

(** ** The [while] loop of [chunk] *)

Lemma chunks_ok_nil self text : chunks_ok self text [].
Proof.
  split; [constructor |]. split; intros i; intros; by rewrite lookup_nil in *.
Qed.

Lemma chunks_ok_snoc self text cs c :
  chunks_ok self text cs ->
  Forall (fun c' => chunk_start c' < chunk_start c) cs ->
  chunk_ok self text c ->
  chunk_index c = len cs ->
  chunks_ok self text (cs ++ [c]).
Proof.
  intros (Hall & Hidx & Hinc) Hlt Hc Hi. split; [| split].
  - apply Forall_app. split; [done | by constructor].
  - intros i c' Hl. apply lookup_snoc_Some in Hl as [[_ Hl] | [-> <-]].
    + by apply Hidx.
    + done.
  - intros i j a b Ha Hb Hij.
    apply lookup_snoc_Some in Hb as [[Hj Hb] | [-> <-]].
    + rewrite lookup_app_l in Ha by lia. by eapply Hinc.
    + rewrite lookup_app_l in Ha by lia.
      rewrite Forall_forall in Hlt. apply Hlt.
      eapply list_elem_of_lookup_2. exact Ha.
Qed.

Lemma whitespace_window text a b :
  0 <= a -> a <= b -> b <= len text ->
  whitespace_only (take (Z.to_nat a) text) ->
  strip (slice text a b) = [] ->
  whitespace_only (take (Z.to_nat b) text).
Proof.
  intros Ha Hab Hb Hpre Hwin. rewrite (take_slice text a b) by done.
  apply Forall_app. split; [done | by apply strip_nil].
Qed.

Lemma whitespace_take_le text n m :
  (n <= m)%nat -> whitespace_only (take m text) -> whitespace_only (take n text).
Proof.
  intros Hnm H. replace n with (n `min` m)%nat by lia.
  rewrite <- take_take. by apply Forall_take.
Qed.

Lemma whitespace_take_all text n :
  len text <= Z.of_nat n -> whitespace_only (take n text) -> whitespace_only text.
Proof. intros Hn H. rewrite take_ge in H; [done | unfold len in Hn; lia]. Qed.

(** The cursor after a pass that continues: strictly beyond the old one,
    by the overlap step or else by the forced-progress guard. *)
Lemma next_start_progress start end_ ov :
  start < end_ -> 0 <= ov ->
  let new_start := end_ - ov in
  let next := if new_start <=? start then end_ else new_start in
  start < next <= end_.
Proof. intros Hlt Hov. simpl. destruct (Z.leb_spec (end_ - ov) start); lia. Qed.

Lemma loop_body_inv self text st :
  valid_config self -> loop_inv self text st -> cur_start st < len text ->
  match loop_body self text st with
  | Break st' => result_ok self text (cur_chunks st')
  | Continue st' =>
      loop_inv self text st' /\ cur_start st < cur_start st' <= len text
  end.
Proof.
  intros Hv (H0 & Hidx & Hok & Hlt & Hws) Hs.
  destruct (window_end_range self text (cur_start st) Hv (conj H0 Hs))
    as [[He1 He2] He3].
  pose proof (next_start_progress (cur_start st)
    (window_end self text (cur_start st)) (overlap self) He1
    (proj1 (proj2 Hv))) as Hnext.
  unfold loop_body. simpl in Hnext.
  set (e := window_end self text (cur_start st)) in *.
  set (next := if e - overlap self <=? cur_start st then e
               else e - overlap self) in *.
  destruct (strip (slice text (cur_start st) e)) as [|ch chs] eqn:Hstrip.
  - (* the window holds whitespace only: nothing is emitted *)
    assert (cur_chunks st = [] -> whitespace_only (take (Z.to_nat e) text))
      as Hws'.
    { intros Hnil. apply (whitespace_window text (cur_start st) e); auto; lia. }
    destruct (Z.leb_spec (len text) e) as [Hend | Hend]; cbn.
    + split; [done |]. intros Hnil.
      apply (whitespace_take_all text (Z.to_nat e)); [lia | auto].
    + split; [| lia].
      repeat split; cbn; try done; try lia; try apply Hok.
      * eapply Forall_impl; [exact Hlt |]. cbn. intros c Hc. lia.
      * intros Hnil. apply (whitespace_take_le text _ (Z.to_nat e)); [lia | auto].
  - (* a chunk is emitted *)
    set (c := mkChunk (ch :: chs) (cur_start st) e (cur_index st)).
    assert (chunks_ok self text (cur_chunks st ++ [c])) as Hok'.
    { apply chunks_ok_snoc; [done | done | | done].
      repeat split; cbn; try done; try lia.
      rewrite <- Hstrip.
      pose proof (strip_length (slice text (cur_start st) e)) as Hl.
      rewrite slice_length in Hl by lia. lia. }
    destruct (Z.leb_spec (len text) e) as [Hend | Hend]; cbn.
    + split; [done |]. intros Hnil. by apply app_eq_nil in Hnil as [_ ?].
    + split; [| lia].
      repeat split; cbn; try done; try lia; try apply Hok'.
      * rewrite len_app, Hidx. unfold len. simpl. lia.
      * apply Forall_app. split.
        -- eapply Forall_impl; [exact Hlt |]. cbn. intros c' Hc'. lia.
        -- constructor; [cbn; lia | constructor].
      * intros Hnil. by apply app_eq_nil in Hnil as [_ ?].
Qed.

(** Enough fuel for the characters left is enough for the loop. *)
Lemma while_loop_returns self text :
  valid_config self ->
  forall fuel st,
    loop_inv self text st ->
    len text - cur_start st <= Z.of_nat fuel ->
    exists cs, while_loop fuel self text st = Some cs /\ result_ok self text cs.
Proof.
  intros Hv. induction fuel as [|fuel IH]; intros st Hinv Hfuel.
  - cbn. destruct (Z.ltb_spec (cur_start st) (len text)); [lia |].
    exists (cur_chunks st). split; [done |].
    destruct Hinv as (H0 & _ & Hok & _ & Hws). split; [done |].
    intros Hnil. apply (whitespace_take_all text (Z.to_nat (cur_start st)));
      [lia | auto].
  - cbn [while_loop]. destruct (Z.ltb_spec (cur_start st) (len text)) as [Hs | Hs].
    + pose proof (loop_body_inv self text st Hv Hinv Hs) as Hbody.
      destruct (loop_body self text st) as [st' | st'].
      * by exists (cur_chunks st').
      * destruct Hbody as [Hinv' Hprog]. apply IH; [done | lia].
    + exists (cur_chunks st). split; [done |].
      destruct Hinv as (H0 & _ & Hok & _ & Hws). split; [done |].
      intros Hnil. apply (whitespace_take_all text (Z.to_nat (cur_start st)));
        [lia | auto].
Qed.

(** More fuel does not change what the loop returns. *)
Lemma while_loop_more_fuel self text fuel fuel' st cs :
  while_loop fuel self text st = Some cs -> (fuel <= fuel')%nat ->
  while_loop fuel' self text st = Some cs.
Proof.
  revert fuel' st. induction fuel as [|fuel IH]; intros fuel' st Hrun Hle.
  - cbn in Hrun. destruct fuel'; cbn [while_loop];
      destruct (cur_start st <? len text); done.
  - destruct fuel' as [|fuel']; [lia |]. cbn [while_loop] in *.
    destruct (cur_start st <? len text); [| done].
    destruct (loop_body self text st); [done |]. apply IH; [done | lia].
Qed.

Lemma loop_inv_init self text : loop_inv self text (mkLoop 0 0 []).
Proof.
  repeat split; cbn; try done; try apply chunks_ok_nil.
  intros _. rewrite take_0. constructor.
Qed.

Lemma chunk_fuel_whitespace fuel self text :
  whitespace_only text -> chunk_fuel fuel self text = Some [].
Proof.
  intros Hws. unfold chunk_fuel. apply (proj2 (strip_nil text)) in Hws.
  rewrite Hws. cbn. by rewrite orb_true_r.
Qed.

Lemma chunk_fuel_returns self text fuel :
  valid_config self -> (length text <= fuel)%nat ->
  exists cs, chunk_fuel fuel self text = Some cs /\
             chunks_ok self text cs /\ (cs = [] <-> whitespace_only text).
Proof.
  intros Hv Hfuel.
  destruct (strip text) as [|ch chs] eqn:Hstrip.
  - exists []. apply (proj1 (strip_nil text)) in Hstrip.
    split; [by apply chunk_fuel_whitespace |]. split; [apply chunks_ok_nil | done].
  - destruct (while_loop_returns self text Hv fuel (mkLoop 0 0 []))
      as (cs & Hrun & Hok & Hnil); [apply loop_inv_init | cbn; unfold len; lia |].
    exists cs. split; [| split; [done |]].
    + unfold chunk_fuel. rewrite Hstrip. destruct text; [done | exact Hrun].
    + split; [done |]. intros Hws. apply (proj2 (strip_nil text)) in Hws.
      congruence.
Qed.

Lemma chunk_returns self text :
  valid_config self ->
  exists cs, chunk self text = Some cs /\
             chunks_ok self text cs /\ (cs = [] <-> whitespace_only text).
Proof. intros Hv. by apply chunk_fuel_returns. Qed.

(** ** The chunker: the claims *)

(** C1. When the tentative end [min(start + chunk_size, len(text))] lies
    before the end of the text, the separators [". "], [".\n"], ["\n\n"],
    ["\n"], [" "] are tried in that order: the first one whose last
    occurrence in the window [text[start:end]] has an offset strictly
    above [chunk_size // 2] moves the end to
    [start + offset + len(separator)], whatever the later separators
    are; when no separator qualifies, the tentative end is kept. *)
Theorem break_point_by_priority self text start :
  valid_config self ->
  Z.min (start + chunk_size self) (len text) < len text ->
  let end_ := Z.min (start + chunk_size self) (len text) in
  let window := slice text start end_ in
  let half := chunk_size self / 2 in
  SENTENCE_SEPARATORS = [ [46; 32]; [46; 10]; [10; 10]; [10]; [32] ]%N /\
  (forall pre sep post off,
      SENTENCE_SEPARATORS = pre ++ sep :: post ->
      (forall sep' off', sep' ∈ pre -> ~ accepted window half sep' off') ->
      accepted window half sep off ->
      window_end self text start = start + off + len sep) /\
  ((forall sep off, sep ∈ SENTENCE_SEPARATORS -> ~ accepted window half sep off) ->
   window_end self text start = end_).
Proof.
  intros [Hcs _] Hend. cbv zeta. split; [done |].
  pose proof (half_nonneg _ Hcs) as Hhalf.
  unfold window_end, _find_break_point.
  destruct (Z.ltb_spec (Z.min (start + chunk_size self) (len text)) (len text));
    [| lia].
  split.
  - intros pre sep post off Hseps Hpre Hacc.
    by apply (try_separators_first _ _ _ _ _ pre sep post off).
  - intros Hnone. by apply try_separators_none.
Qed.

Lemma break_point_by_priority_witness :
  window_end (mkFixedSizeChunker 20 5)
    (py "This is sentence one. This is sentence two.") 0 = 0 + 16 + len [32%N].
Proof.
  pose proof (break_point_by_priority (mkFixedSizeChunker 20 5)
    (py "This is sentence one. This is sentence two.") 0) as Hbp.
  destruct Hbp as (_ & Hfirst & _).
  - unfold valid_config. cbn. lia.
  - vm_compute. reflexivity.
  - apply (Hfirst [ [46; 32]; [46; 10]; [10; 10]; [10] ]%N [32%N] [] 16).
    + reflexivity.
    + intros sep' off' Hin Hacc. apply accepted_rfind in Hacc as [Hr Hoff].
      change (10 < off') in Hoff.
      repeat (apply elem_of_cons in Hin as [-> | Hin];
              [vm_compute in Hr; lia |]).
      by apply elem_of_nil in Hin.
    + assert (rfind (slice (py "This is sentence one. This is sentence two.")
                       0 20) [32%N] = 16) as Hr by (vm_compute; reflexivity).
      rewrite <- Hr. apply rfind_accepted; [done | by rewrite Hr].
Defined.

Lemma indexed_in_order_seq cs :
  indexed_in_order cs -> chunk_index <$> cs = Z.of_nat <$> seq 0 (length cs).
Proof.
  intros Hidx. apply list_eq. intros i. rewrite !list_lookup_fmap.
  destruct (cs !! i) as [c |] eqn:Hc; cbn.
  - rewrite lookup_seq_lt by (by eapply lookup_lt_Some). cbn.
    by rewrite (Hidx _ _ Hc).
  - rewrite lookup_seq_ge; [done |]. by apply lookup_ge_None.
Qed.

(** C2. For a valid configuration, [chunk] returns, and every chunk it
    emits has [0 <= start < end <= len(text)]; the starts of consecutive
    chunks strictly increase; the indices are [0, 1, ..., n-1] in the
    order of emission. *)
Theorem chunk_positions_and_indices self text :
  valid_config self ->
  exists chunks,
    chunk self text = Some chunks /\
    (forall c, c ∈ chunks ->
       0 <= chunk_start c /\ chunk_start c < chunk_end c /\
       chunk_end c <= len text) /\
    (forall i a b, chunks !! i = Some a -> chunks !! S i = Some b ->
       chunk_start a < chunk_start b) /\
    chunk_index <$> chunks = Z.of_nat <$> seq 0 (length chunks).
Proof.
  intros Hv.
  destruct (chunk_returns self text Hv) as (cs & Hrun & (Hall & Hidx & Hinc) & _).
  exists cs. split; [done |]. split; [| split].
  - intros c Hc. rewrite Forall_forall in Hall.
    destruct (Hall c Hc) as ([? ?] & ? & _). done.
  - intros i a b Ha Hb. apply (Hinc i (S i)); [done | done | lia].
  - by apply indexed_in_order_seq.
Qed.

Lemma chunk_positions_and_indices_witness :
  exists chunks,
    chunk (mkFixedSizeChunker 50 10) (replicate 150 65%N) = Some chunks /\
    (forall c, c ∈ chunks ->
       0 <= chunk_start c /\ chunk_start c < chunk_end c /\
       chunk_end c <= 150) /\
    (forall i a b, chunks !! i = Some a -> chunks !! S i = Some b ->
       chunk_start a < chunk_start b) /\
    chunk_index <$> chunks = Z.of_nat <$> seq 0 (length chunks).
Proof.
  apply (chunk_positions_and_indices (mkFixedSizeChunker 50 10)
           (replicate 150 65%N)).
  unfold valid_config. cbn. lia.
Defined.

(** C3. For a valid configuration, every chunk [chunk] emits records the
    window [start, end) as it was before stripping, and its text is that
    window [text[start:end]] stripped of whitespace at both ends; the
    text is not empty and is at most [chunk_size] long. *)
Theorem chunk_text_is_stripped_window self text :
  valid_config self ->
  exists chunks,
    chunk self text = Some chunks /\
    forall c, c ∈ chunks ->
      chunk_end c = window_end self text (chunk_start c) /\
      chunk_text c = strip (slice text (chunk_start c) (chunk_end c)) /\
      chunk_text c <> [] /\
      len (chunk_text c) <= chunk_size self.
Proof.
  intros Hv.
  destruct (chunk_returns self text Hv) as (cs & Hrun & (Hall & _ & _) & _).
  exists cs. split; [done |].
  intros c Hc. rewrite Forall_forall in Hall.
  by destruct (Hall c Hc) as (_ & _ & ? & ? & ? & ?).
Qed.

Lemma chunk_text_is_stripped_window_witness :
  exists chunks,
    chunk (mkFixedSizeChunker 20 5)
      (py "This is sentence one. This is sentence two.") = Some chunks /\
    forall c, c ∈ chunks ->
      chunk_end c = window_end (mkFixedSizeChunker 20 5)
        (py "This is sentence one. This is sentence two.") (chunk_start c) /\
      chunk_text c = strip (slice (py "This is sentence one. This is sentence two.")
                              (chunk_start c) (chunk_end c)) /\
      chunk_text c <> [] /\
      len (chunk_text c) <= 20.
Proof.
  apply (chunk_text_is_stripped_window (mkFixedSizeChunker 20 5)
           (py "This is sentence one. This is sentence two.")).
  unfold valid_config. cbn. lia.
Defined.

(** C4. [chunk] of the empty string, and of any string that holds only
    whitespace, is the empty list, whatever the configuration; so
    [chunk("") == []] and [chunk("   \n\t ") == []]. *)
Theorem chunk_of_blank_text self text :
  whitespace_only text ->
  chunk self text = Some [] /\
  chunk self [] = Some [] /\
  chunk self [32; 32; 32; 10; 9; 32]%N = Some [].
Proof.
  intros Hws. split; [by apply chunk_fuel_whitespace |]. split; reflexivity.
Qed.

Lemma chunk_of_blank_text_witness :
  chunk (mkFixedSizeChunker 100 20) [32; 32; 32; 10; 9; 32; 32]%N = Some [].
Proof.
  apply (chunk_of_blank_text (mkFixedSizeChunker 100 20)
           [32; 32; 32; 10; 9; 32; 32]%N).
  repeat constructor.
Defined.

(** C5. [FixedSizeChunker(chunk_size, overlap)] raises [ValueError] (the
    specification's [InvalidConfiguration]) when [chunk_size <= 0],
    [overlap < 0] or [overlap >= chunk_size], and only then; a chunker
    that was constructed has a valid configuration, and its [chunk]
    returns a list for every text: it has no way to raise. *)
Theorem init_rejects_invalid_configuration cs ov :
  (cs <= 0 \/ ov < 0 \/ ov >= cs <->
   exists msg, FixedSizeChunker_init cs ov = inl (ValueError msg)) /\
  (forall self, FixedSizeChunker_init cs ov = inr self ->
     self = mkFixedSizeChunker cs ov /\ valid_config self /\
     forall text, exists chunks,
       chunker_chunk (FixedSizeChunker_Chunker self) text = Returns chunks) /\
  (exists msg, FixedSizeChunker_init 0 10 = inl (ValueError msg)) /\
  (exists msg, FixedSizeChunker_init (-1) 10 = inl (ValueError msg)) /\
  (exists msg, FixedSizeChunker_init 100 (-1) = inl (ValueError msg)) /\
  (exists msg, FixedSizeChunker_init 100 100 = inl (ValueError msg)).
Proof.
  split; [| split].
  - unfold FixedSizeChunker_init.
    destruct (Z.leb_spec cs 0); [split; [eauto | lia] |].
    destruct (Z.ltb_spec ov 0); [split; [eauto | lia] |].
    destruct (Z.geb_spec ov cs); [split; [eauto | lia] |].
    split; [lia | by intros [msg ?]].
  - intros self. unfold FixedSizeChunker_init.
    destruct (Z.leb_spec cs 0); [done |].
    destruct (Z.ltb_spec ov 0); [done |].
    destruct (Z.geb_spec ov cs); [done |].
    intros [= <-]. split; [done |].
    assert (valid_config (mkFixedSizeChunker cs ov)) as Hv
      by (unfold valid_config; cbn; lia).
    split; [done |]. intros text.
    destruct (chunk_returns _ text Hv) as (chunks & Hrun & _).
    exists chunks. cbn. by rewrite Hrun.
  - repeat split; eexists; reflexivity.
Qed.

Lemma loop_body_progress self text st st' :
  valid_config self -> 0 <= cur_start st < len text ->
  loop_body self text st = Continue st' ->
  cur_start st < window_end self text (cur_start st) < len text /\
  cur_start st' =
    (if window_end self text (cur_start st) - overlap self <=? cur_start st
     then window_end self text (cur_start st)
     else window_end self text (cur_start st) - overlap self).
Proof.
  intros Hv Hs. destruct (window_end_range self text (cur_start st) Hv Hs)
    as [[He1 He2] _].
  unfold loop_body.
  destruct (strip (slice text (cur_start st) (window_end self text (cur_start st))));
    destruct (Z.leb_spec (len text) (window_end self text (cur_start st)));
    try done; intros [= <-]; cbn; (split; [lia | done]).
Qed.

(** C10. For a valid configuration [chunk] terminates.  A pass of the
    loop that continues moves the cursor strictly forward, and not past
    the end of the window: the next start is [end - overlap] when that
    lies beyond the current start, and otherwise the forced-progress
    guard makes it [end], which is beyond the current start.  So one pass
    per character of the text is enough for the loop to end, and more
    passes allowed do not change the result. *)
Theorem chunk_terminates self text :
  valid_config self ->
  (forall st st',
      0 <= cur_start st < len text ->
      loop_body self text st = Continue st' ->
      let end_ := window_end self text (cur_start st) in
      cur_start st < end_ /\
      cur_start st' = (if end_ - overlap self <=? cur_start st then end_
                       else end_ - overlap self) /\
      cur_start st < cur_start st' < len text) /\
  (exists chunks,
      chunk self text = Some chunks /\
      forall fuel, (length text <= fuel)%nat ->
        chunk_fuel fuel self text = Some chunks).
Proof.
  intros Hv. split.
  - intros st st' Hs Hbody. cbv zeta.
    destruct (loop_body_progress self text st st' Hv Hs Hbody) as [He Hnext].
    split; [lia |]. split; [done |]. rewrite Hnext.
    destruct Hv as (_ & Hov & _).
    destruct (Z.leb_spec (window_end self text (cur_start st) - overlap self)
                (cur_start st)); lia.
  - destruct (chunk_returns self text Hv) as (chunks & Hrun & _).
    exists chunks. split; [done |]. intros fuel Hfuel.
    unfold chunk, chunk_fuel in *.
    destruct (is_empty text || is_empty (strip text)); [done |].
    by apply (while_loop_more_fuel self text (length text)).
Qed.

Lemma chunk_terminates_witness :
  exists chunks,
    chunk (mkFixedSizeChunker 50 10) (replicate 150 65%N) = Some chunks /\
    forall fuel, (150 <= fuel)%nat ->
      chunk_fuel fuel (mkFixedSizeChunker 50 10) (replicate 150 65%N)
      = Some chunks.
Proof.
  apply (chunk_terminates (mkFixedSizeChunker 50 10) (replicate 150 65%N)).
  unfold valid_config. cbn. lia.
Defined.

(** ** The memory service *)

Lemma py_isspace_not_surrogate c : py_isspace c = true -> (c < 55296)%N.
Proof.
  unfold py_isspace. rewrite !orb_true_iff, !andb_true_iff, !N.leb_le, !N.eqb_eq.
  lia.
Qed.

Lemma whitespace_char_encodes c :
  py_isspace c = true -> exists bytes, utf8_encode_char c = Some bytes.
Proof.
  intros Hc. apply py_isspace_not_surrogate in Hc. unfold utf8_encode_char.
  destruct (c <? 128)%N; [eauto |]. destruct (c <? 2048)%N; [eauto |].
  destruct (N.leb_spec 55296 c); [lia |]. cbn.
  destruct (c <? 65536)%N; eauto.
Qed.

(** A string of whitespace has a UTF-8 encoding. *)
Lemma whitespace_encodes s :
  whitespace_only s -> exists bytes, str_encode s = Returns bytes.
Proof.
  induction 1 as [|c s Hc _ (rest & IH)]; cbn; [eauto |].
  destruct (whitespace_char_encodes c Hc) as (bytes & ->).
  rewrite IH. cbn. eauto.
Qed.

Lemma slice_prefix {A} (s : list A) (n : nat) :
  slice s 0 (Z.of_nat n) = take n s.
Proof.
  unfold slice, slice_bound.
  destruct (Z.ltb_spec 0 0); [lia |]. destruct (Z.ltb_spec (Z.of_nat n) 0); [lia |].
  pose proof (len_nonneg s). rewrite (Z.min_l 0) by done.
  rewrite Z.sub_0_r. change (Z.to_nat 0) with 0%nat. rewrite drop_0.
  destruct (Z.le_ge_cases (Z.of_nat n) (len s)).
  - rewrite Z.min_l by done. by rewrite Nat2Z.id.
  - rewrite Z.min_r by done. unfold len in *. rewrite Nat2Z.id.
    rewrite !take_ge; [done | lia | lia].
Qed.

Lemma dict_or_none_empty d : dict_or_none d = None <-> d = ∅.
Proof.
  unfold dict_or_none. split.
  - destruct (map_to_list d) eqn:Hl; [| done]. intros _.
    by apply map_to_list_empty_iff.
  - intros ->. by rewrite map_to_list_empty.
Qed.

Lemma dict_or_none_nonempty d : d <> ∅ -> dict_or_none d = Some d.
Proof.
  intros Hne. unfold dict_or_none.
  destruct (map_to_list d) eqn:Hl; [| done].
  by apply map_to_list_empty_iff in Hl.
Qed.

(** Two different ASCII literals are different keys. *)
Ltac key_clash :=
  match goal with
  | H : py ?a = py ?b |- _ => vm_compute in H; discriminate H
  end.

(** Case analysis on whether the looked-up key is one of the literal
    keys of the goal. *)
Ltac split_keys :=
  repeat (rewrite lookup_insert || rewrite lookup_singleton
          || rewrite lookup_empty);
  repeat case_decide; subst; try key_clash; try done.

Section ServiceProperties.
Context `{PyRuntime}.

Lemma optional_field_lookup key v k :
  optional_field key v !! k =
  if decide (key = k)
  then match v with Some (c :: s) => Some (VStr (c :: s)) | _ => None end
  else None.
Proof.
  destruct v as [[|c s] |]; cbn [optional_field];
    rewrite ?lookup_empty, ?lookup_singleton; by case_decide.
Qed.

Lemma set_if_truthy_optional key v d :
  set_if_truthy key v d = optional_field key v ∪ d.
Proof.
  destruct v as [[|c s] |]; cbn.
  - by rewrite (left_id ∅ (∪)).
  - by rewrite insert_union_singleton_l.
  - by rewrite (left_id ∅ (∪)).
Qed.

Lemma base_metadata_of_spec content_hash user_id session_id agent_name :
  base_metadata_of content_hash user_id session_id agent_name =
  spec_base_metadata utcnow_isoformat content_hash user_id session_id agent_name.
Proof.
  unfold base_metadata_of, spec_base_metadata.
  rewrite !set_if_truthy_optional.
  apply map_eq. intros k. rewrite !lookup_union. split_keys.
Qed.

Lemma chunk_meta_of_spec base caller total c :
  chunk_meta_of base caller total c = chunk_fields c total ∪ (caller ∪ base).
Proof.
  unfold chunk_meta_of, chunk_fields, dict_update.
  rewrite (right_id ∅ (∪)).
  apply map_eq. intros k. rewrite !lookup_union. split_keys;
    rewrite ?lookup_union; by destruct (caller !! _), (base !! _).
Qed.

Lemma union_later_wins_three a b c :
  union_later_wins [a; b; c] = c ∪ (b ∪ a).
Proof. unfold union_later_wins. cbn. by rewrite (right_id ∅ (∪)). Qed.

Lemma lookup_union_later_wins (a b c : gmap str pyval) k :
  (c ∪ (b ∪ a)) !! k =
  match c !! k with
  | Some v => Some v
  | None => match b !! k with Some v => Some v | None => a !! k end
  end.
Proof.
  rewrite !lookup_union.
  destruct (c !! k), (b !! k), (a !! k); done.
Qed.

(** The run of [add_memory] up to the call of the store. *)
Lemma add_memory_run svc content metadata user_id session_id agent_name log
    bytes chunks vectors :
  str_encode content = Returns bytes ->
  chunker_chunk (chunker svc) content = Returns chunks ->
  chunks <> [] ->
  embed (embeddings svc) (chunk_text <$> chunks) = Returns vectors ->
  let base := base_metadata_of (take 16 (sha256_hexdigest bytes))
                user_id session_id agent_name in
  let metas := chunk_meta_of base (default ∅ metadata) (len chunks) <$> chunks in
  add_memory svc content metadata user_id session_id agent_name log =
  (outcome_bind (store_add (store svc) vectors (chunk_text <$> chunks) metas)
     (fun ids => Returns (mkAddMemoryResponse ids (len chunks))),
   log ++ [CallChunk content; CallEmbed (chunk_text <$> chunks);
           CallStoreAdd vectors (chunk_text <$> chunks) metas]).
Proof.
  intros Henc Hchunk Hne Hembed. cbv zeta.
  unfold add_memory, bind, lift, await, ret, content_hash_of.
  rewrite Henc. cbn [outcome_bind]. rewrite Hchunk.
  destruct chunks as [|c chunks]; [done |]. cbn [is_empty].
  rewrite Hembed. rewrite (slice_prefix _ 16).
  rewrite <- !app_assoc. cbn [app].
  by destruct (store_add _ _ _ _).
Qed.

Lemma add_memory_no_chunks svc content metadata user_id session_id agent_name
    log bytes :
  str_encode content = Returns bytes ->
  chunker_chunk (chunker svc) content = Returns [] ->
  add_memory svc content metadata user_id session_id agent_name log =
  (Returns (mkAddMemoryResponse [] 0), log ++ [CallChunk content]).
Proof.
  intros Henc Hchunk.
  unfold add_memory, bind, lift, await, ret, content_hash_of.
  rewrite Henc. cbn [outcome_bind]. by rewrite Hchunk.
Qed.

(** C6. When the chunker yields no chunk for the content, as the
    repository's chunker does exactly for an empty or whitespace-only
    content, [add_memory] returns [{memory_ids: [], chunks_created: 0}]
    as an ordinary result, and the only collaborator it has called is
    the chunker: neither [embeddings.embed] nor [store.add] is invoked.
    The same holds with any other chunker for a content that
    [str.encode] accepts. *)
Theorem add_memory_without_chunks svc content metadata
    user_id session_id agent_name log :
  (forall self,
     valid_config self ->
     chunker svc = FixedSizeChunker_Chunker self ->
     chunker_chunk (chunker svc) content = Returns [] \/
       whitespace_only content ->
     add_memory svc content metadata user_id session_id agent_name log =
     (Returns (mkAddMemoryResponse [] 0), log ++ [CallChunk content])) /\
  (forall bytes,
     str_encode content = Returns bytes ->
     chunker_chunk (chunker svc) content = Returns [] ->
     add_memory svc content metadata user_id session_id agent_name log =
     (Returns (mkAddMemoryResponse [] 0), log ++ [CallChunk content])).
Proof.
  split; [| intros bytes; apply add_memory_no_chunks].
  intros self Hv Hsvc Hnone.
  destruct (chunk_returns self content Hv) as (cs & Hrun & _ & Hnil).
  assert (whitespace_only content) as Hws.
  { destruct Hnone as [Hrun' | Hws]; [| done].
    apply Hnil. rewrite Hsvc in Hrun'.
    unfold FixedSizeChunker_Chunker in Hrun'. cbn [chunker_chunk] in Hrun'.
    rewrite Hrun in Hrun'. congruence. }
  destruct (whitespace_encodes content Hws) as (bytes & Henc).
  apply (add_memory_no_chunks _ _ _ _ _ _ _ bytes); [done |].
  rewrite Hsvc. unfold FixedSizeChunker_Chunker, chunk. cbn [chunker_chunk].
  by rewrite (chunk_fuel_whitespace _ self content Hws).
Qed.

(** The calls [add_memory] makes, by how far it gets. *)
Lemma add_memory_calls svc content metadata user_id session_id agent_name log :
  let run := add_memory svc content metadata user_id session_id agent_name in
  calls_from log run = [] \/
  calls_from log run = [CallChunk content] \/
  (exists bytes chunks,
     str_encode content = Returns bytes /\
     chunker_chunk (chunker svc) content = Returns chunks /\ chunks <> [] /\
     (calls_from log run = [CallChunk content; CallEmbed (chunk_text <$> chunks)]
      \/
      exists vectors,
        embed (embeddings svc) (chunk_text <$> chunks) = Returns vectors /\
        calls_from log run =
          [CallChunk content; CallEmbed (chunk_text <$> chunks);
           CallStoreAdd vectors (chunk_text <$> chunks)
             (chunk_meta_of
                (base_metadata_of (take 16 (sha256_hexdigest bytes))
                   user_id session_id agent_name)
                (default ∅ metadata) (len chunks) <$> chunks)])).
Proof.
  cbv zeta. unfold calls_from.
  destruct (str_encode content) as [bytes | e |] eqn:Henc.
  2,3: left; unfold add_memory, bind, lift, content_hash_of; rewrite Henc;
       cbn; by rewrite drop_all.
  destruct (chunker_chunk (chunker svc) content) as [chunks | e |] eqn:Hchunk.
  2,3: right; left; unfold add_memory, bind, lift, await, content_hash_of;
       rewrite Henc; cbn [outcome_bind]; rewrite Hchunk; cbn [snd];
       by rewrite drop_app_length.
  destruct chunks as [|c chunks].
  { right. left. rewrite (add_memory_no_chunks _ _ _ _ _ _ _ bytes) by done.
    cbn [snd]. by rewrite drop_app_length. }
  right. right. exists bytes, (c :: chunks). do 3 (split; [done |]).
  destruct (embed (embeddings svc) (chunk_text <$> c :: chunks))
    as [vectors | e |] eqn:Hembed.
  2,3: left; unfold add_memory, bind, lift, await, content_hash_of;
       rewrite Henc; cbn [outcome_bind]; rewrite Hchunk; cbn [is_empty];
       rewrite Hembed; cbn [snd]; rewrite <- app_assoc;
       by rewrite drop_app_length.
  right. exists vectors. split; [done |].
  rewrite (add_memory_run _ _ _ _ _ _ _ bytes (c :: chunks) vectors) by done.
  cbn [snd]. by rewrite drop_app_length.
Qed.

(** C7. The metadata [add_memory] hands to [store.add], which it does
    when it has [n >= 1] chunks and their vectors, has one entry per
    chunk, in order, and the entry of a chunk is the union of the base
    metadata, the caller's metadata and
    [{chunk_index, chunk_start, chunk_end, total_chunks}] of that chunk
    and [n], a later one of the three winning on a shared key.  The base
    metadata holds [timestamp] and [content_hash], and [user_id],
    [session_id], [agent_name] only when given and not empty;
    [content_hash] is the first 16 characters of the SHA-256 hex digest
    of the whole content, the same for every chunk. *)
Theorem add_memory_chunk_metadata svc content metadata
    user_id session_id agent_name log :
  let run := add_memory svc content metadata user_id session_id agent_name in
  let caller := default ∅ metadata in
  let base bytes :=
    spec_base_metadata utcnow_isoformat (take 16 (sha256_hexdigest bytes))
      user_id session_id agent_name in
  let meta_of bytes chunks c :=
    union_later_wins [base bytes; caller; chunk_fields c (len chunks)] in
  (forall bytes chunks vectors,
     str_encode content = Returns bytes ->
     chunker_chunk (chunker svc) content = Returns chunks ->
     chunks <> [] ->
     embed (embeddings svc) (chunk_text <$> chunks) = Returns vectors ->
     calls_from log run =
       [CallChunk content; CallEmbed (chunk_text <$> chunks);
        CallStoreAdd vectors (chunk_text <$> chunks)
          (meta_of bytes chunks <$> chunks)]) /\
  (forall vectors documents metas,
     CallStoreAdd vectors documents metas ∈ calls_from log run ->
     exists bytes chunks,
       str_encode content = Returns bytes /\
       chunker_chunk (chunker svc) content = Returns chunks /\
       chunks <> [] /\
       documents = chunk_text <$> chunks /\
       metas = meta_of bytes chunks <$> chunks) /\
  (forall bytes chunks c k,
     meta_of bytes chunks c !! k =
     match chunk_fields c (len chunks) !! k with
     | Some v => Some v
     | None => match caller !! k with
               | Some v => Some v
               | None => base bytes !! k
               end
     end) /\
  (forall bytes,
     base bytes !! py "timestamp" = Some (VStr utcnow_isoformat) /\
     base bytes !! py "content_hash" =
       Some (VStr (take 16 (sha256_hexdigest bytes))) /\
     base bytes !! py "user_id" =
       match user_id with Some (c :: s) => Some (VStr (c :: s)) | _ => None end /\
     base bytes !! py "session_id" =
       match session_id with Some (c :: s) => Some (VStr (c :: s)) | _ => None end /\
     base bytes !! py "agent_name" =
       match agent_name with Some (c :: s) => Some (VStr (c :: s)) | _ => None end) /\
  (forall bytes chunks c1 c2,
     meta_of bytes chunks c1 !! py "content_hash" =
     meta_of bytes chunks c2 !! py "content_hash").
Proof.
  cbv zeta.
  assert (forall bytes chunks,
    chunk_meta_of
      (base_metadata_of (take 16 (sha256_hexdigest bytes))
         user_id session_id agent_name)
      (default ∅ metadata) (len chunks) <$> chunks =
    (fun c => union_later_wins
       [spec_base_metadata utcnow_isoformat (take 16 (sha256_hexdigest bytes))
          user_id session_id agent_name;
        default ∅ metadata; chunk_fields c (len chunks)]) <$> chunks) as Hmetas.
  { intros bytes chunks. apply list_fmap_ext. intros i c _.
    by rewrite union_later_wins_three, chunk_meta_of_spec, base_metadata_of_spec. }
  split; [| split; [| split; [| split]]].
  - intros bytes chunks vectors Henc Hchunk Hne Hembed. unfold calls_from.
    rewrite (add_memory_run _ _ _ _ _ _ _ bytes chunks vectors) by done.
    cbn [snd]. by rewrite drop_app_length, Hmetas.
  - intros vectors documents metas Hin.
    destruct (add_memory_calls svc content metadata user_id session_id
                agent_name log)
      as [Hc | [Hc | (bytes & chunks & Henc & Hchunk & Hne & [Hc | (vs & _ & Hc)])]];
      rewrite Hc in Hin.
    + by apply elem_of_nil in Hin.
    + apply elem_of_cons in Hin as [? | Hin]; [done |]. by apply elem_of_nil in Hin.
    + repeat (apply elem_of_cons in Hin as [? | Hin]; [done |]).
      by apply elem_of_nil in Hin.
    + do 2 (apply elem_of_cons in Hin as [? | Hin]; [done |]).
      apply elem_of_cons in Hin as [[= -> -> ->] | Hin];
        [| by apply elem_of_nil in Hin].
      exists bytes, chunks. by rewrite Hmetas.
  - intros bytes chunks c k. rewrite union_later_wins_three.
    apply lookup_union_later_wins.
  - intros bytes. unfold spec_base_metadata.
    repeat split; rewrite !lookup_union, !optional_field_lookup; split_keys;
      by destruct agent_name as [[|? ?] |], session_id as [[|? ?] |],
           user_id as [[|? ?] |].
  - intros bytes chunks c1 c2. rewrite !union_later_wins_three.
    rewrite !lookup_union_later_wins. unfold chunk_fields. split_keys.
Qed.

Lemma part_lines_spec author part lines :
  part_emits author part lines -> part_lines author part = lines.
Proof.
  destruct 1 as [p text Hp | s | p Hp | part Hd Hs]; cbn [part_lines].
  - by rewrite Hp.
  - unfold author_line. by rewrite format_value_str.
  - by rewrite Hp.
  - destruct part; try done; [by destruct (Hs s) | by destruct (Hd d)].
Qed.

Lemma parts_lines_spec author parts liness :
  Forall2 (part_emits author) parts liness ->
  concat (part_lines author <$> parts) = concat liness.
Proof.
  induction 1 as [|part lines parts liness Hpart _ IH]; cbn; [done |].
  by rewrite (part_lines_spec _ _ _ Hpart), IH.
Qed.

Lemma event_lines_spec event lines :
  event_emits event lines -> event_lines event = Returns lines.
Proof.
  destruct 1 as [event Hd | ev [Hc | Hc] | ev s Hc | ev c parts liness Hc Hp Hparts];
    cbn [event_lines].
  - destruct event; try done. by destruct (Hd d).
  - by rewrite Hc.
  - by rewrite Hc.
  - rewrite Hc. unfold author_line. by rewrite format_value_str.
  - rewrite Hc, Hp. cbn [default id py_iter outcome_bind].
    by rewrite (parts_lines_spec _ _ _ Hparts).
Qed.

Lemma collect_lines_spec events liness :
  Forall2 event_emits events liness ->
  collect_lines events = Returns (concat liness).
Proof.
  induction 1 as [|event lines events liness Hevent _ IH]; cbn; [done |].
  rewrite (event_lines_spec _ _ Hevent), IH. done.
Qed.

(** Once the content is encoded, the first thing [add_memory] does is to
    hand it to the chunker. *)
Lemma add_memory_calls_chunker svc content metadata user_id session_id
    agent_name log bytes :
  str_encode content = Returns bytes ->
  exists rest,
    snd (add_memory svc content metadata user_id session_id agent_name log) =
    log ++ CallChunk content :: rest.
Proof.
  intros Henc. unfold add_memory, bind, lift, await, ret, content_hash_of.
  rewrite Henc. cbn [outcome_bind].
  destruct (chunker_chunk (chunker svc) content) as [chunks | e |];
    [| by exists [] | by exists []].
  destruct chunks as [|c chunks]; cbn [is_empty]; [by exists [] |].
  destruct (embed (embeddings svc) _) as [vectors | e |];
    [| eexists; by rewrite <- app_assoc ..].
  destruct (store_add _ _ _ _); eexists; by rewrite <- !app_assoc.
Qed.

Lemma part_emits_total author part : exists lines, part_emits author part lines.
Proof.
  destruct part as [| | | |s| |p];
    try (exists []; by apply part_other).
  - eexists. apply part_plain_string.
  - destruct (p !! py "text") as [text |] eqn:Hp.
    + eexists. by apply (part_map_with_text author p text).
    + exists []. by apply part_map_without_text.
Qed.

Lemma parts_emit_total author parts :
  exists liness, Forall2 (part_emits author) parts liness.
Proof.
  induction parts as [|part parts [liness IH]]; [by exists [] |].
  destruct (part_emits_total author part) as [lines Hpart].
  exists (lines :: liness). by constructor.
Qed.

Lemma event_emits_unworded_spec event lines :
  event_emits_unworded event lines -> event_lines event = Returns lines.
Proof.
  destruct 1 as [ev content Hc Hn Hs Hd | ev c Hc Hp
                | ev c s liness Hc Hp Hparts | ev c d liness Hc Hp Hparts];
    cbn [event_lines]; rewrite Hc.
  - destruct content; try done; [by destruct (Hs s) | by destruct (Hd d)].
  - by rewrite Hp.
  - rewrite Hp. cbn [default id py_iter outcome_bind].
    by rewrite (parts_lines_spec _ _ _ Hparts).
  - rewrite Hp. cbn [default id py_iter outcome_bind].
    by rewrite (parts_lines_spec _ _ _ Hparts).
Qed.

Lemma event_yields_spec event lines :
  event_yields event lines -> event_lines event = Returns lines.
Proof.
  intros [Hemits | Hemits];
    [by apply event_lines_spec | by apply event_emits_unworded_spec].
Qed.

Lemma collect_lines_yields events liness :
  Forall2 event_yields events liness ->
  collect_lines events = Returns (concat liness).
Proof.
  induction 1 as [|event lines events liness Hevent _ IH]; cbn; [done |].
  rewrite (event_yields_spec _ _ Hevent), IH. done.
Qed.

(** Every event either has a [parts] that cannot be iterated or yields
    lines. *)
Lemma event_cases event :
  parts_not_iterable event \/ exists lines, event_yields event lines.
Proof.
  destruct event as [| | | | | |ev];
    try (right; exists []; left; by apply event_not_a_map).
  destruct (ev !! py "content") as [content |] eqn:Hc;
    [| right; exists []; left; apply event_content_absent; by left].
  destruct content as [|b|z|f|s|l|c];
    try (right; exists []; right; by apply (event_content_other ev _ Hc)).
  - right. exists []. left. apply event_content_absent. by right.
  - right. eexists. left. by apply event_content_string.
  - destruct (c !! py "parts") as [parts |] eqn:Hp;
      [| right; exists []; right; by apply (event_content_without_parts ev c)].
    destruct parts as [|b|z|f|s|l|d];
      try (left; exists ev, c; eexists; repeat split; eauto 6; fail).
    + destruct (parts_emit_total
                  (default (VStr (py "unknown")) (ev !! py "author"))
                  ((fun ch => VStr [ch]) <$> s)) as [liness Hparts].
      right. exists (concat liness). right.
      by apply (event_parts_string ev c s).
    + destruct (parts_emit_total
                  (default (VStr (py "unknown")) (ev !! py "author")) l)
        as [liness Hparts].
      right. exists (concat liness). left.
      by apply (event_content_parts ev c l).
    + destruct (parts_emit_total
                  (default (VStr (py "unknown")) (ev !! py "author"))
                  (VStr <$> dict_keys d)) as [liness Hparts].
      right. exists (concat liness). right.
      by apply (event_parts_map ev c d).
Qed.

Lemma events_cases events :
  Exists parts_not_iterable events \/
  exists liness, Forall2 event_yields events liness.
Proof.
  induction events as [|event events IH]; [right; by exists [] |].
  destruct (event_cases event) as [Hbad | [lines Hevent]];
    [left; by apply Exists_cons_hd |].
  destruct IH as [Hbad | [liness Hevents]];
    [left; by apply Exists_cons_tl |].
  right. exists (lines :: liness). by constructor.
Qed.

(** An event raises nothing but [TypeError]. *)
Lemma event_lines_outcome event :
  (exists lines, event_lines event = Returns lines) \/
  event_lines event = Raises TypeError.
Proof.
  destruct event as [| | | | |l|ev]; cbn [event_lines]; eauto.
  destruct (ev !! py "content") as [[| | | |s|l|c] |]; eauto.
  destruct (default (VList []) (c !! py "parts")); cbn; eauto.
Qed.

Lemma collect_lines_not_iterable events event :
  event ∈ events -> parts_not_iterable event ->
  collect_lines events = Raises TypeError.
Proof.
  intros Hin Hbad. induction events as [|e events IH];
    [by apply elem_of_nil in Hin |].
  cbn [collect_lines]. apply elem_of_cons in Hin as [<- | Hin].
  - destruct Hbad as (ev & c & parts & -> & Hc & Hp & Hparts).
    cbn [event_lines]. rewrite Hc, Hp.
    by destruct Hparts as [-> | [[b ->] | [[z ->] | [f ->]]]].
  - destruct (event_lines_outcome e) as [[lines ->] | ->]; [| done].
    cbn [outcome_bind]. by rewrite (IH Hin).
Qed.

(** What [add_session_to_memory] does with the lines it collected. *)
Lemma add_session_of_lines svc session_id user_id events app_name log lines :
  collect_lines events = Returns lines ->
  (lines = [] ->
   add_session_to_memory svc session_id user_id events app_name log =
   (Returns (mkAddMemoryResponse [] 0), log)) /\
  (lines <> [] ->
   add_session_to_memory svc session_id user_id events app_name log =
   add_memory svc (str_join [10%N] lines)
     (Some {[ py "source" := VStr (py "session") ]})
     (Some user_id) (Some session_id) app_name log) /\
  (lines <> [] -> forall bytes,
   str_encode (str_join [10%N] lines) = Returns bytes ->
   exists rest,
     snd (add_session_to_memory svc session_id user_id events app_name log) =
     log ++ CallChunk (str_join [10%N] lines) :: rest).
Proof.
  intros Hlines.
  assert (lines <> [] ->
    add_session_to_memory svc session_id user_id events app_name log =
    add_memory svc (str_join [10%N] lines)
      (Some {[ py "source" := VStr (py "session") ]})
      (Some user_id) (Some session_id) app_name log) as Hdelegate.
  { intros Hne. unfold add_session_to_memory, bind, lift.
    rewrite Hlines. by destruct lines. }
  split; [| split; [done |]].
  - intros ->. unfold add_session_to_memory, bind, lift, ret.
    by rewrite Hlines.
  - intros Hne bytes Henc. rewrite (Hdelegate Hne).
    by apply (add_memory_calls_chunker _ _ _ _ _ _ _ bytes).
Qed.

(** C8. For the events the specification words, [add_session_to_memory]
    emits, in order, the line ["{author}: {content}"] when the content is
    a string (the author being ["unknown"] when the event names none),
    one line for each usable part when the content is a map with a list
    of parts, and nothing when the event is not a map or has no content.
    When no line was emitted it returns
    [{memory_ids: [], chunks_created: 0}] and calls no collaborator;
    otherwise it is [add_memory] of the lines joined by a newline, with
    the metadata [{"source": "session"}] and [app_name] as the agent
    name, so that the joined lines are the chunker's input.  The events
    [{author: user, content: Hello}] and
    [{author: assistant, content: Hi}] give the chunker
    ["user: Hello\nassistant: Hi"].

    This does not hold of every event list.  Every event list is one of
    two kinds: either each event yields lines, those the specification
    words or those of the cases it leaves unworded, and the above holds
    of them; or some event has a content map whose [parts] is present
    and cannot be iterated, and then the call raises [TypeError] instead
    of skipping the event.  The events [{content: {parts: None}}] emit no
    line, and the call raises [TypeError] where the specification
    returns [{memory_ids: [], chunks_created: 0}]. *)
Theorem add_session_builds_chunker_input svc session_id user_id events
    app_name log :
  let run := add_session_to_memory svc session_id user_id in
  let outcome_of (events : list pyval) (lines : list str) :=
    let full_content := str_join [10%N] lines in
    (lines = [] ->
     run events app_name log = (Returns (mkAddMemoryResponse [] 0), log)) /\
    (lines <> [] ->
     run events app_name log =
     add_memory svc full_content
       (Some {[ py "source" := VStr (py "session") ]})
       (Some user_id) (Some session_id) app_name log) /\
    (lines <> [] -> forall bytes, str_encode full_content = Returns bytes ->
     exists rest,
       snd (run events app_name log) =
       log ++ CallChunk full_content :: rest) in
  (forall liness,
     Forall2 event_emits events liness -> outcome_of events (concat liness)) /\
  ((Exists parts_not_iterable events /\
    run events app_name log = (Raises TypeError, log)) \/
   (exists liness,
      Forall2 event_yields events liness /\
      outcome_of events (concat liness))) /\
  (forall event lines lines',
     event_yields event lines -> event_yields event lines' -> lines = lines') /\
  (exists rest,
     snd (run [ VDict {[ py "author" := VStr (py "user");
                         py "content" := VStr (py "Hello") ]};
                VDict {[ py "author" := VStr (py "assistant");
                         py "content" := VStr (py "Hi") ]} ]
            app_name log) =
     log ++ CallChunk (py "user: Hello" ++ [10%N] ++ py "assistant: Hi") :: rest) /\
  run [ VDict {[ py "content" := VDict {[ py "parts" := VNone ]} ]} ]
    app_name log = (Raises TypeError, log).
Proof.
  cbv zeta. split; [| split; [| split; [| split]]].
  - intros liness Hemits. apply add_session_of_lines.
    by apply collect_lines_spec.
  - destruct (events_cases events) as [Hbad | [liness Hyields]].
    + left. split; [done |]. apply Exists_exists in Hbad as (event & Hin & Hbad).
      unfold add_session_to_memory, bind, lift.
      by rewrite (collect_lines_not_iterable events event Hin Hbad).
    + right. exists liness. split; [done |]. apply add_session_of_lines.
      by apply collect_lines_yields.
  - intros event lines lines' Hl Hl'.
    apply event_yields_spec in Hl, Hl'. congruence.
  - destruct (add_session_of_lines svc session_id user_id
                [ VDict {[ py "author" := VStr (py "user");
                           py "content" := VStr (py "Hello") ]};
                  VDict {[ py "author" := VStr (py "assistant");
                           py "content" := VStr (py "Hi") ]} ]
                app_name log [py "user: Hello"; py "assistant: Hi"])
      as (_ & _ & Hchunk).
    + cbn [collect_lines event_lines].
      change ({[ py "author" := VStr (py "user");
                 py "content" := VStr (py "Hello") ]} !! py "content")
        with (Some (VStr (py "Hello"))).
      change ({[ py "author" := VStr (py "assistant");
                 py "content" := VStr (py "Hi") ]} !! py "content")
        with (Some (VStr (py "Hi"))).
      change ({[ py "author" := VStr (py "user");
                 py "content" := VStr (py "Hello") ]} !! py "author")
        with (Some (VStr (py "user"))).
      change ({[ py "author" := VStr (py "assistant");
                 py "content" := VStr (py "Hi") ]} !! py "author")
        with (Some (VStr (py "assistant"))).
      cbn [default id outcome_bind]. unfold author_line.
      by rewrite !format_value_str.
    + apply (Hchunk ltac:(done)
               (py "user: Hello" ++ [10%N] ++ py "assistant: Hi")).
      vm_compute. reflexivity.
  - unfold add_session_to_memory, bind, lift.
    rewrite (collect_lines_not_iterable _
               (VDict {[ py "content" := VDict {[ py "parts" := VNone ]} ]}));
      [done | by apply elem_of_cons; left |].
    exists {[ py "content" := VDict {[ py "parts" := VNone ]} ]},
           {[ py "parts" := VNone ]}, VNone.
    repeat split; eauto.
Qed.

Lemma search_filters_lookup request k :
  search_filters request !! k =
  match identity_filter request k with
  | Some s => Some (VStr s)
  | None => req_filters request !! k
  end.
Proof.
  unfold search_filters, identity_filter.
  destruct (req_agent_name request) as [[|? ?] |],
    (req_session_id request) as [[|? ?] |],
    (req_user_id request) as [[|? ?] |]; cbn [set_if_truthy];
    repeat rewrite lookup_insert; repeat case_decide; subst;
    try key_clash; done.
Qed.

(** The calls [search_memory] makes, by how far it gets. *)
Lemma search_memory_calls svc request log :
  let run := search_memory svc request in
  calls_from log run = [CallEmbed [req_query request]] \/
  exists v vs,
    embed (embeddings svc) [req_query request] = Returns (v :: vs) /\
    calls_from log run =
      [CallEmbed [req_query request];
       CallStoreSearch v (req_top_k request)
         (dict_or_none (search_filters request)) (req_score_threshold request)]
    /\
    fst (run log) =
      outcome_bind
        (store_search (store svc) v (req_top_k request)
           (dict_or_none (search_filters request)) (req_score_threshold request))
        (fun hits =>
           Returns (mkMemorySearchResponse
             ((fun r => mkMemorySearchResult (hit_content r) (hit_metadata r)
                          (hit_score r) (hit_id r)) <$> hits)
             (req_query request))).
Proof.
  cbv zeta. unfold calls_from, search_memory, bind, await, ret, raise.
  destruct (embed (embeddings svc) [req_query request]) as [[|v vs] | e |].
  1,3,4: left; cbn [snd]; by rewrite drop_app_length.
  right. exists v, vs. split; [done |].
  rewrite <- app_assoc. cbn [app].
  destruct (store_search _ _ _ _ _); cbn [fst snd outcome_bind];
    by rewrite drop_app_length.
Qed.

(** What [search_memory] returns is never a failed embedding. *)
Lemma search_memory_returns svc request log response :
  fst (search_memory svc request log) = Returns response ->
  exists v vs, embed (embeddings svc) [req_query request] = Returns (v :: vs).
Proof.
  unfold search_memory, bind, await, ret, raise.
  destruct (embed (embeddings svc) [req_query request]) as [[|v vs] | e |];
    try done.
  intros _. by exists v, vs.
Qed.

(** C9, as amended.  [search_memory] passes to [store.search] the
    caller's filters with [user_id], [session_id] and [agent_name] added
    when they are neither null nor empty, an added key replacing the
    caller's value for it, and passes [None] when the merged map is
    empty; its response maps the store's results, in the store's order,
    to [{content, metadata, score, memory_id}] and repeats the query. *)
Theorem search_memory_filters_and_results svc request log :
  let run := search_memory svc request in
  exists merged passed,
    (forall k, merged !! k =
       match identity_filter request k with
       | Some s => Some (VStr s)
       | None => req_filters request !! k
       end) /\
    (merged = ∅ -> passed = None) /\
    (merged <> ∅ -> passed = Some merged) /\
    (forall vector top_k filters score_threshold,
       CallStoreSearch vector top_k filters score_threshold
         ∈ calls_from log run ->
       filters = passed) /\
    (forall v vs,
       embed (embeddings svc) [req_query request] = Returns (v :: vs) ->
       calls_from log run =
         [CallEmbed [req_query request];
          CallStoreSearch v (req_top_k request) passed
            (req_score_threshold request)]) /\
    (forall response,
       fst (run log) = Returns response ->
       query response = req_query request /\
       exists v hits,
         store_search (store svc) v (req_top_k request) passed
           (req_score_threshold request) = Returns hits /\
         length (results response) = length hits /\
         forall i r, hits !! i = Some r ->
           results response !! i =
           Some (mkMemorySearchResult (hit_content r) (hit_metadata r)
                   (hit_score r) (hit_id r))).
Proof.
  cbv zeta.
  exists (search_filters request), (dict_or_none (search_filters request)).
  split; [apply search_filters_lookup |].
  split; [by intros ->%dict_or_none_empty |].
  split; [apply dict_or_none_nonempty |].
  pose proof (search_memory_calls svc request log) as Hcalls. cbv zeta in Hcalls.
  split; [| split].
  - intros vector top_k filters score_threshold Hin.
    destruct Hcalls as [Hc | (v & vs & _ & Hc & _)]; rewrite Hc in Hin.
    + apply elem_of_cons in Hin as [? | Hin]; [done |]. by apply elem_of_nil in Hin.
    + apply elem_of_cons in Hin as [? | Hin]; [done |].
      apply elem_of_cons in Hin as [[= -> -> -> ->] | Hin]; [done |].
      by apply elem_of_nil in Hin.
  - intros v vs Hembed.
    destruct Hcalls as [Hc | (v' & vs' & Hembed' & Hc & _)].
    + exfalso. revert Hc.
      unfold calls_from, search_memory, bind, await, ret, raise.
      rewrite Hembed. rewrite <- app_assoc. cbn [app].
      destruct (store_search _ _ _ _ _); cbn [snd];
        by rewrite drop_app_length.
    + rewrite Hembed in Hembed'. by injection Hembed' as -> ->.
  - intros response Hret.
    destruct Hcalls as [Hc | (v & vs & Hembed & _ & Hrun)].
    + exfalso. destruct (search_memory_returns _ _ _ _ Hret) as (v & vs & Hembed).
      revert Hc. unfold calls_from, search_memory, bind, await, ret, raise.
      rewrite Hembed. rewrite <- app_assoc. cbn [app].
      destruct (store_search _ _ _ _ _); cbn [snd];
        by rewrite drop_app_length.
    + rewrite Hrun in Hret.
      destruct (store_search _ _ _ _ _) as [hits | e |] eqn:Hsearch; try done.
      cbn [outcome_bind] in Hret. injection Hret as <-. cbn [query results].
      split; [done |]. exists v, hits. split; [done |].
      split; [by rewrite length_fmap |].
      intros i r Hr. by rewrite list_lookup_fmap, Hr.
Qed.

End ServiceProperties.

(** ** The claims at concrete inputs *)

Lemma add_memory_without_chunks_witness :
  @add_memory example_runtime example_service [] None
    (Some (py "test-user")) None None [] =
  (Returns (mkAddMemoryResponse [] 0), [CallChunk []]).
Proof.
  apply (proj1 (@add_memory_without_chunks example_runtime example_service
                  [] None (Some (py "test-user")) None None [])
           (mkFixedSizeChunker 100 20)).
  - unfold valid_config. cbn. lia.
  - reflexivity.
  - right. constructor.
Defined.

Lemma add_memory_chunk_metadata_witness :
  exists metas,
    calls_from []
      (@add_memory example_runtime example_service
         (py "This is a test memory content.") None
         (Some (py "test-user")) (Some (py "test-session")) None) =
    [ CallChunk (py "This is a test memory content.");
      CallEmbed [py "This is a test memory content."];
      CallStoreAdd [replicate 1536 0x1.999999999999ap-4%float]
        [py "This is a test memory content."] metas ].
Proof.
  eexists.
  apply (proj1 (@add_memory_chunk_metadata example_runtime example_service
                  (py "This is a test memory content.") None
                  (Some (py "test-user")) (Some (py "test-session")) None [])
           (py "This is a test memory content.")
           [mkChunk (py "This is a test memory content.") 0 30 0]
           [replicate 1536 0x1.999999999999ap-4%float]).
  - vm_compute. reflexivity.
  - vm_compute. reflexivity.
  - discriminate.
  - reflexivity.
Defined.

(** C9 as the specification words it fails for an identity value that is
    the empty string: it is not null, so the specification's filters
    hold [user_id], while the code, which tests the value's truth, adds
    nothing and passes [None]. *)
Lemma search_filters_empty_user_id_counterexample :
  exists request,
    request = mkMemorySearchRequest (py "preference") (Some []) None None
                10 None ∅ /\
    dict_or_none (spec_search_filters request) =
      Some {[ py "user_id" := VStr [] ]} /\
    snd (search_memory example_service request []) =
      [ CallEmbed [py "preference"];
        CallStoreSearch (replicate 1536 0x1.999999999999ap-4%float) 10 None None ].
Proof.
  eexists. split; [reflexivity |]. split.
  - apply dict_or_none_nonempty. cbn. apply insert_non_empty.
  - reflexivity.
Qed.

Lemma search_memory_filters_and_results_witness :
  exists passed,
    calls_from []
      (search_memory example_service
         (mkMemorySearchRequest (py "preference") (Some (py "user-1"))
            None None 10 None ∅)) =
    [ CallEmbed [py "preference"];
      CallStoreSearch (replicate 1536 0x1.999999999999ap-4%float) 10 passed None ].
Proof.
  destruct (@search_memory_filters_and_results example_service
              (mkMemorySearchRequest (py "preference") (Some (py "user-1"))
                 None None 10 None ∅) [])
    as (merged & passed & _ & _ & _ & _ & Hlog & _).
  exists passed.
  apply (Hlog (replicate 1536 0x1.999999999999ap-4%float) []). reflexivity.
Defined.

(* ===================================================================== *)
(** * Part III. Further properties of the code                           *)
(* ===================================================================== *)

(** ** The chunker *)

Lemma slice_all {A} (s : list A) : slice s 0 (len s) = s.
Proof.
  unfold len. rewrite slice_prefix. by rewrite take_ge.
Qed.

Lemma slice_lookup {A} (s : list A) a b p :
  0 <= a -> a <= b -> b <= len s -> a <= Z.of_nat p < b ->
  slice s a b !! (p - Z.to_nat a)%nat = s !! p.
Proof.
  intros Ha Hab Hb Hp. rewrite slice_in_range by done.
  rewrite lookup_take_lt by lia. rewrite lookup_drop. f_equal. lia.
Qed.

(** A character inside a window that strips to nothing is whitespace. *)
Lemma blank_window_char text a b p ch :
  0 <= a -> a <= b -> b <= len text ->
  strip (slice text a b) = [] ->
  a <= Z.of_nat p < b -> text !! p = Some ch -> py_isspace ch = true.
Proof.
  intros Ha Hab Hb Hblank Hp Hch.
  apply (proj1 (strip_nil _)) in Hblank. unfold whitespace_only in Hblank.
  rewrite Forall_lookup in Hblank.
  apply (Hblank (p - Z.to_nat a)%nat). by rewrite slice_lookup.
Qed.

Lemma covered_mono cs cs' p : cs ⊆ cs' -> covered cs p -> covered cs' p.
Proof. intros Hsub (c & Hc & Hp). exists c. split; [by apply Hsub | done]. Qed.

Lemma overlap_bounded_snoc self cs c :
  overlap_bounded self cs ->
  Forall (fun c' => chunk_end c' - overlap self <= chunk_start c) cs ->
  overlap_bounded self (cs ++ [c]).
Proof.
  intros Hcs Hall i j a b Ha Hb Hij.
  apply lookup_snoc_Some in Hb as [[Hj Hb] | [-> <-]].
  - rewrite lookup_app_l in Ha by lia. by eapply Hcs.
  - rewrite lookup_app_l in Ha by lia.
    rewrite Forall_forall in Hall.
    pose proof (Hall a (list_elem_of_lookup_2 _ _ _ Ha)). lia.
Qed.

Lemma cover_body_inv self text st :
  valid_config self -> 0 <= cur_start st < len text ->
  cover_inv self text st ->
  match loop_body self text st with
  | Break st' =>
      covers_up_to text (cur_chunks st') (len text) /\
      overlap_bounded self (cur_chunks st')
  | Continue st' => cover_inv self text st'
  end.
Proof.
  intros Hv Hs (Hcov & Hends & Hov).
  destruct (window_end_range self text (cur_start st) Hv Hs) as [[He1 He2] _].
  pose proof (next_start_progress (cur_start st)
    (window_end self text (cur_start st)) (overlap self) He1
    (proj1 (proj2 Hv))) as Hnext.
  unfold loop_body. simpl in Hnext.
  set (e := window_end self text (cur_start st)) in *.
  set (next := if e - overlap self <=? cur_start st then e
               else e - overlap self) in *.
  assert (e - overlap self <= next) as Hnext'.
  { unfold next. destruct (Z.leb_spec (e - overlap self) (cur_start st)); lia. }
  destruct (strip (slice text (cur_start st) e)) as [|ch chs] eqn:Hstrip.
  - (* a blank window *)
    assert (covers_up_to text (cur_chunks st) e) as Hcov'.
    { intros p c Hp Hc Hns.
      destruct (Z.lt_ge_cases (Z.of_nat p) (cur_start st)) as [Hlt | Hge];
        [by eapply Hcov |].
      rewrite (blank_window_char text (cur_start st) e p c) in Hns; try done; lia. }
    destruct (Z.leb_spec (len text) e); cbn.
    + split; [| done]. intros p c Hp. apply Hcov'. lia.
    + split; [| split; [| done]].
      * intros p c Hp. cbn in Hp. apply Hcov'. lia.
      * eapply Forall_impl; [exact Hends |]. cbn. intros c Hc. lia.
  - (* a chunk is emitted *)
    set (c := mkChunk (ch :: chs) (cur_start st) e (cur_index st)).
    assert (covers_up_to text (cur_chunks st ++ [c]) e) as Hcov'.
    { intros p c' Hp Hc' Hns.
      destruct (Z.lt_ge_cases (Z.of_nat p) (cur_start st)) as [Hlt | Hge].
      - eapply covered_mono; [| by eapply Hcov].
        intros x Hx. apply elem_of_app. by left.
      - exists c. split; [| cbn; lia].
        apply elem_of_app. right. apply elem_of_cons. by left. }
    assert (overlap_bounded self (cur_chunks st ++ [c])) as Hov'
      by (by apply overlap_bounded_snoc).
    destruct (Z.leb_spec (len text) e); cbn.
    + split; [| done]. intros p c' Hp. apply Hcov'. lia.
    + split; [| split; [| done]].
      * intros p c' Hp. cbn in Hp. apply Hcov'. lia.
      * apply Forall_app. split.
        -- eapply Forall_impl; [exact Hends |]. cbn. intros c' Hc'. lia.
        -- constructor; [cbn; lia | constructor].
Qed.

Lemma cover_while_loop self text :
  valid_config self ->
  forall fuel st cs,
    loop_inv self text st -> cover_inv self text st ->
    while_loop fuel self text st = Some cs ->
    covers_up_to text cs (len text) /\ overlap_bounded self cs.
Proof.
  intros Hv. induction fuel as [|fuel IH]; intros st cs Hinv Hcov Hrun;
    cbn [while_loop] in Hrun;
    destruct (Z.ltb_spec (cur_start st) (len text)) as [Hs | Hs]; try done.
  - injection Hrun as <-. destruct Hcov as (Hcov & _ & Hov). split; [| done].
    intros p c Hp. apply Hcov. lia.
  - assert (0 <= cur_start st < len text) as Hs' by (destruct Hinv; lia).
    pose proof (loop_body_inv self text st Hv Hinv Hs) as Hbody.
    pose proof (cover_body_inv self text st Hv Hs' Hcov) as Hcbody.
    destruct (loop_body self text st) as [st' | st'].
    + by injection Hrun as <-.
    + destruct Hbody as [Hinv' _]. by apply (IH st').
  - injection Hrun as <-. destruct Hcov as (Hcov & _ & Hov). split; [| done].
    intros p c Hp. apply Hcov. lia.
Qed.

Lemma cover_inv_init self text : cover_inv self text (mkLoop 0 0 []).
Proof.
  split; [| split].
  - intros p c Hp. cbn in Hp. lia.
  - constructor.
  - intros i j a b Ha. cbn in Ha. by rewrite lookup_nil in Ha.
Qed.

Lemma chunk_covers self text cs :
  valid_config self -> chunk self text = Some cs ->
  covers_up_to text cs (len text) /\ overlap_bounded self cs.
Proof.
  intros Hv. unfold chunk, chunk_fuel.
  destruct (is_empty text || is_empty (strip text)) eqn:Hblank.
  - intros [= <-]. split; [| intros i j a b Ha; by rewrite lookup_nil in Ha].
    intros p c _ Hc Hns.
    assert (whitespace_only text) as Hws.
    { apply orb_true_iff in Hblank as [Ht | Ht].
      - destruct text; [constructor | done].
      - apply strip_nil. by destruct (strip text). }
    unfold whitespace_only in Hws. rewrite Forall_lookup in Hws.
    rewrite (Hws p c Hc) in Hns. done.
  - apply cover_while_loop; [done | apply loop_inv_init | apply cover_inv_init].
Qed.

(** X1. For a valid configuration, a text yields no chunk exactly when
    it holds whitespace only: a text with any other character yields at
    least one chunk. *)
Theorem chunk_empty_iff_blank self text :
  valid_config self ->
  exists chunks,
    chunk self text = Some chunks /\ (chunks = [] <-> whitespace_only text).
Proof.
  intros Hv. destruct (chunk_returns self text Hv) as (cs & Hrun & _ & Hnil).
  by exists cs.
Qed.

Lemma chunk_empty_iff_blank_witness :
  exists chunks,
    chunk (mkFixedSizeChunker 100 20) (py " a ") = Some chunks /\
    (chunks = [] <-> whitespace_only (py " a ")).
Proof.
  apply (chunk_empty_iff_blank (mkFixedSizeChunker 100 20) (py " a ")).
  unfold valid_config. cbn. lia.
Defined.

(** X2. A text of at most [chunk_size] characters that is not blank
    yields exactly one chunk: the stripped text, recorded with the window
    [0, len(text)) and index [0]. *)
Theorem chunk_of_short_text self text :
  valid_config self -> len text <= chunk_size self ->
  ~ whitespace_only text ->
  chunk self text = Some [mkChunk (strip text) 0 (len text) 0].
Proof.
  intros [Hcs _] Hshort Hnb.
  assert (strip text <> []) as Hstrip by (by rewrite strip_nil).
  assert (text <> []) as Htext by (intros ->; apply Hnb; constructor).
  unfold chunk, chunk_fuel.
  destruct text as [|c0 text0] eqn:Ht; [done |]. rewrite <- Ht in *.
  destruct (strip text) as [|s0 ss] eqn:Hs; [done |].
  replace (is_empty text) with false by (by rewrite Ht).
  cbn [is_empty orb]. rewrite Ht at 1. cbn [length while_loop cur_start].
  assert (0 < len text) as Hpos by (rewrite Ht; unfold len; cbn; lia).
  destruct (Z.ltb_spec 0 (len text)); [| lia].
  unfold loop_body, window_end. cbn [cur_start cur_chunks cur_index].
  rewrite Z.min_r by lia.
  destruct (Z.ltb_spec (len text) (len text)); [lia |].
  rewrite slice_all, Hs.
  destruct (Z.leb_spec (len text) (len text)); [| lia]. done.
Qed.

Lemma chunk_of_short_text_witness :
  chunk (mkFixedSizeChunker 100 20) (py "This is a short text.") =
  Some [mkChunk (strip (py "This is a short text.")) 0
          (len (py "This is a short text.")) 0].
Proof.
  apply (chunk_of_short_text (mkFixedSizeChunker 100 20)
           (py "This is a short text.")).
  - unfold valid_config. cbn. lia.
  - vm_compute. discriminate.
  - intros Hws. apply (proj2 (strip_nil _)) in Hws. vm_compute in Hws.
    discriminate Hws.
Defined.

(** X3. For a valid configuration no character other than whitespace is
    lost: every position of the text that holds one lies in the window
    [start, end) of some emitted chunk. *)
Theorem chunk_covers_text self text :
  valid_config self ->
  exists chunks,
    chunk self text = Some chunks /\
    forall p ch, text !! p = Some ch -> py_isspace ch = false ->
      exists c, c ∈ chunks /\ chunk_start c <= Z.of_nat p < chunk_end c.
Proof.
  intros Hv. destruct (chunk_returns self text Hv) as (cs & Hrun & _).
  exists cs. split; [done |]. intros p ch Hp Hns.
  destruct (chunk_covers self text cs Hv Hrun) as [Hcov _].
  apply (Hcov p ch); [| done | done].
  apply lookup_lt_Some in Hp. unfold len. lia.
Qed.

Lemma chunk_covers_text_witness :
  exists chunks,
    chunk (mkFixedSizeChunker 50 10) (replicate 150 65%N) = Some chunks /\
    forall p ch, replicate 150 65%N !! p = Some ch -> py_isspace ch = false ->
      exists c, c ∈ chunks /\ chunk_start c <= Z.of_nat p < chunk_end c.
Proof.
  apply (chunk_covers_text (mkFixedSizeChunker 50 10) (replicate 150 65%N)).
  unfold valid_config. cbn. lia.
Defined.

(** X4. For a valid configuration a chunk shares at most [overlap]
    characters with the chunk after it: the end of one exceeds the start
    of the next by at most [overlap].  With [overlap = 0] the windows of
    the chunks are disjoint. *)
Theorem chunk_overlap_bounded self text :
  valid_config self ->
  exists chunks,
    chunk self text = Some chunks /\
    forall i a b, chunks !! i = Some a -> chunks !! S i = Some b ->
      chunk_end a - chunk_start b <= overlap self.
Proof.
  intros Hv. destruct (chunk_returns self text Hv) as (cs & Hrun & _).
  exists cs. split; [done |]. intros i a b Ha Hb.
  destruct (chunk_covers self text cs Hv Hrun) as [_ Hov].
  apply (Hov i (S i)); [done | done | lia].
Qed.

Lemma chunk_overlap_bounded_witness :
  exists chunks,
    chunk (mkFixedSizeChunker 50 10) (replicate 150 65%N) = Some chunks /\
    forall i a b, chunks !! i = Some a -> chunks !! S i = Some b ->
      chunk_end a - chunk_start b <= 10.
Proof.
  apply (chunk_overlap_bounded (mkFixedSizeChunker 50 10) (replicate 150 65%N)).
  unfold valid_config. cbn. lia.
Defined.

Lemma try_separators_cases seps region m start end_ :
  try_separators seps region m start end_ = end_ \/
  exists sep, sep ∈ seps /\ m < rfind region sep /\
    try_separators seps region m start end_ = start + rfind region sep + len sep.
Proof.
  induction seps as [|sep seps IH]; cbn [try_separators]; [by left |].
  destruct (Z.ltb_spec m (rfind region sep)) as [Hlt | _].
  - right. exists sep. split; [by left | done].
  - destruct IH as [? | (sep' & Hin & ? & ?)]; [by left |].
    right. exists sep'. split; [by right | done].
Qed.

Lemma occurs_at_slice s sub k :
  occurs_at s sub k -> slice s (Z.of_nat k) (Z.of_nat k + len sub) = sub.
Proof.
  intros (pre & post & -> & <-). unfold len.
  rewrite slice_in_range; [| lia | lia | unfold len; rewrite !length_app; lia].
  replace (Z.to_nat (Z.of_nat (length pre) + Z.of_nat (length sub)
                     - Z.of_nat (length pre))) with (length sub) by lia.
  rewrite Nat2Z.id, drop_app_length. by rewrite take_app_length.
Qed.

Lemma occurs_at_in_slice s a b sub k :
  0 <= a -> a <= b -> b <= len s ->
  occurs_at (slice s a b) sub k -> occurs_at s sub (Z.to_nat a + k).
Proof.
  intros Ha Hab Hb (pre & post & Hs & Hk).
  exists (take (Z.to_nat a) s ++ pre), (post ++ drop (Z.to_nat b) s). split.
  - rewrite <- (take_drop (Z.to_nat b) s) at 1.
    rewrite (take_slice s a b) by done. rewrite Hs.
    by rewrite <- !app_assoc.
  - rewrite length_app, length_take. unfold len in *. lia.
Qed.

(** A window that stops short of the end of the text is either a full
    window of [chunk_size] characters or ends right after a separator that
    lies beyond the first half of the window. *)
Lemma window_end_short self text start :
  valid_config self -> 0 <= start < len text ->
  window_end self text start < len text ->
  window_end self text start = start + chunk_size self \/
  exists sep off,
    sep ∈ SENTENCE_SEPARATORS /\ chunk_size self / 2 < off /\
    window_end self text start = start + off + len sep /\
    slice text (start + off) (start + off + len sep) = sep.
Proof.
  intros [Hcs _] Hs. unfold window_end, _find_break_point.
  destruct (Z.ltb_spec (Z.min (start + chunk_size self) (len text)) (len text))
    as [Hlt | Hge]; [| lia].
  rewrite Z.min_l in * by lia. intros Hshort.
  destruct (try_separators_cases SENTENCE_SEPARATORS
              (slice text start (start + chunk_size self))
              (chunk_size self / 2) start (start + chunk_size self))
    as [-> | (sep & Hin & Hoff & ->)]; [by left |].
  right. exists sep, (rfind (slice text start (start + chunk_size self)) sep).
  do 3 (split; [done |]).
  pose proof (half_nonneg _ Hcs) as Hhalf.
  destruct (rfind_spec (slice text start (start + chunk_size self)) sep)
    as [[Hr _] | (Hr0 & Hocc & _)]; [lia |].
  apply (occurs_at_in_slice text start (start + chunk_size self)) in Hocc;
    [| lia ..].
  apply occurs_at_slice in Hocc.
  rewrite Nat2Z.inj_add, !Z2Nat.id in Hocc by lia. exact Hocc.
Qed.

(** X5. For a valid configuration, the window of a chunk that stops
    short of the end of the text is longer than [chunk_size // 2]: the
    minimum-offset guard of [_find_break_point] rules out a short chunk
    anywhere but at the end. *)
Theorem chunk_window_over_half self text :
  valid_config self ->
  exists chunks,
    chunk self text = Some chunks /\
    forall c, c ∈ chunks -> chunk_end c < len text ->
      chunk_size self / 2 < chunk_end c - chunk_start c.
Proof.
  intros Hv. destruct (chunk_returns self text Hv) as (cs & Hrun & (Hall & _) & _).
  exists cs. split; [done |]. intros c Hc Hshort.
  rewrite Forall_forall in Hall.
  destruct (Hall c Hc) as ([H0 Hlt] & Hle & Hend & _).
  rewrite Hend in Hshort.
  destruct (window_end_short self text (chunk_start c) Hv) as
    [Hfull | (sep & off & _ & Hoff & Hw & _)]; [lia | done | |].
  - rewrite Hend, Hfull. destruct Hv as [Hcs _].
    pose proof (Z.div_lt (chunk_size self) 2 Hcs). lia.
  - rewrite Hend, Hw. pose proof (len_nonneg sep). lia.
Qed.

Lemma chunk_window_over_half_witness :
  exists chunks,
    chunk (mkFixedSizeChunker 20 5)
      (py "This is sentence one. This is sentence two.") = Some chunks /\
    forall c, c ∈ chunks ->
      chunk_end c < len (py "This is sentence one. This is sentence two.") ->
      20 / 2 < chunk_end c - chunk_start c.
Proof.
  apply (chunk_window_over_half (mkFixedSizeChunker 20 5)
           (py "This is sentence one. This is sentence two.")).
  unfold valid_config. cbn. lia.
Defined.

(** X6. For a valid configuration, the window of a chunk that stops
    short of the end of the text either spans exactly [chunk_size]
    characters or ends right after one of the separators: the characters
    just before its end are that separator. *)
Theorem chunk_ends_after_separator self text :
  valid_config self ->
  exists chunks,
    chunk self text = Some chunks /\
    forall c, c ∈ chunks -> chunk_end c < len text ->
      chunk_end c = chunk_start c + chunk_size self \/
      exists sep, sep ∈ SENTENCE_SEPARATORS /\
        slice text (chunk_end c - len sep) (chunk_end c) = sep.
Proof.
  intros Hv. destruct (chunk_returns self text Hv) as (cs & Hrun & (Hall & _) & _).
  exists cs. split; [done |]. intros c Hc Hshort.
  rewrite Forall_forall in Hall.
  destruct (Hall c Hc) as ([H0 Hlt] & Hle & Hend & _).
  rewrite Hend in Hshort.
  destruct (window_end_short self text (chunk_start c) Hv) as
    [Hfull | (sep & off & Hin & _ & Hw & Hsep)]; [lia | done | |].
  - left. by rewrite Hend.
  - right. exists sep. split; [done |]. rewrite Hend, Hw.
    replace (chunk_start c + off + len sep - len sep)
      with (chunk_start c + off) by lia.
    exact Hsep.
Qed.

Lemma chunk_ends_after_separator_witness :
  exists chunks,
    chunk (mkFixedSizeChunker 20 5)
      (py "This is sentence one. This is sentence two.") = Some chunks /\
    forall c, c ∈ chunks ->
      chunk_end c < len (py "This is sentence one. This is sentence two.") ->
      chunk_end c = chunk_start c + 20 \/
      exists sep, sep ∈ SENTENCE_SEPARATORS /\
        slice (py "This is sentence one. This is sentence two.")
          (chunk_end c - len sep) (chunk_end c) = sep.
Proof.
  apply (chunk_ends_after_separator (mkFixedSizeChunker 20 5)
           (py "This is sentence one. This is sentence two.")).
  unfold valid_config. cbn. lia.
Defined.

(** ** The memory service: failures and edge cases *)

(** A string with a surrogate code point cannot be encoded. *)
Lemma surrogate_not_encodable s c :
  c ∈ s -> (55296 <= c <= 57343)%N -> str_encode s = Raises UnicodeEncodeError.
Proof.
  intros Hin Hc. induction s as [|c' s IH]; [by apply elem_of_nil in Hin |].
  cbn [str_encode]. apply elem_of_cons in Hin as [<- | Hin].
  - unfold utf8_encode_char.
    destruct (N.ltb_spec c 128); [lia |]. destruct (N.ltb_spec c 2048); [lia |].
    destruct (N.leb_spec 55296 c); [| lia]. destruct (N.leb_spec c 57343); [| lia].
    done.
  - destruct (utf8_encode_char c'); [| done]. by rewrite (IH Hin).
Qed.

Section ServiceFailures.
Context `{PyRuntime}.

(** X7. [add_memory] hashes the content before anything else, so a
    content that [str.encode] rejects, one holding a surrogate code
    point, makes it raise [UnicodeEncodeError] before the chunker, the
    embedding provider or the store is called. *)
Theorem add_memory_unencodable_content svc content metadata
    user_id session_id agent_name log c :
  c ∈ content -> (55296 <= c <= 57343)%N ->
  add_memory svc content metadata user_id session_id agent_name log =
  (Raises UnicodeEncodeError, log).
Proof.
  intros Hin Hc. unfold add_memory, bind, lift, content_hash_of.
  by rewrite (surrogate_not_encodable content c Hin Hc).
Qed.

(** X8. [add_memory] lets a failure of a collaborator through unchanged
    and calls nothing after it: when the chunker raises, nothing is
    embedded or stored; when the embedding provider raises, nothing is
    stored; when the store raises, that is the outcome. *)
Theorem add_memory_propagates_failure svc content metadata
    user_id session_id agent_name log bytes e :
  str_encode content = Returns bytes ->
  let run := add_memory svc content metadata user_id session_id agent_name in
  (chunker_chunk (chunker svc) content = Raises e ->
   run log = (Raises e, log ++ [CallChunk content])) /\
  (forall chunks,
     chunker_chunk (chunker svc) content = Returns chunks -> chunks <> [] ->
     embed (embeddings svc) (chunk_text <$> chunks) = Raises e ->
     run log = (Raises e, log ++ [CallChunk content;
                                  CallEmbed (chunk_text <$> chunks)])) /\
  (forall chunks vectors,
     chunker_chunk (chunker svc) content = Returns chunks -> chunks <> [] ->
     embed (embeddings svc) (chunk_text <$> chunks) = Returns vectors ->
     (forall documents metas,
        store_add (store svc) vectors documents metas = Raises e) ->
     fst (run log) = Raises e).
Proof.
  intros Henc. cbv zeta. split; [| split].
  - intros Hchunk. unfold add_memory, bind, lift, await, content_hash_of.
    rewrite Henc. cbn [outcome_bind]. by rewrite Hchunk.
  - intros chunks Hchunk Hne Hembed.
    unfold add_memory, bind, lift, await, content_hash_of.
    rewrite Henc. cbn [outcome_bind]. rewrite Hchunk.
    destruct chunks as [|c chunks]; [done |]. cbn [is_empty].
    rewrite Hembed. by rewrite <- app_assoc.
  - intros chunks vectors Hchunk Hne Hembed Hadd.
    rewrite (add_memory_run _ _ _ _ _ _ _ bytes chunks vectors) by done.
    cbn [fst]. by rewrite Hadd.
Qed.

(** X9. When every collaborator answers, [add_memory] returns the ids
    exactly as the store gave them and counts the chunks, not the ids:
    [chunks_created] is the number of chunks whatever the store returns. *)
Theorem add_memory_response svc content metadata user_id session_id agent_name
    log bytes chunks vectors ids :
  str_encode content = Returns bytes ->
  chunker_chunk (chunker svc) content = Returns chunks ->
  chunks <> [] ->
  embed (embeddings svc) (chunk_text <$> chunks) = Returns vectors ->
  (forall metas,
     store_add (store svc) vectors (chunk_text <$> chunks) metas = Returns ids) ->
  fst (add_memory svc content metadata user_id session_id agent_name log) =
  Returns (mkAddMemoryResponse ids (len chunks)).
Proof.
  intros Henc Hchunk Hne Hembed Hadd.
  rewrite (add_memory_run _ _ _ _ _ _ _ bytes chunks vectors) by done.
  cbn [fst]. by rewrite Hadd.
Qed.

(** X10. [search_memory] raises [IndexError] when the embedding provider
    returns no vector for the query, and lets the provider's own failure
    through; in both cases the store is not searched. *)
Theorem search_memory_without_vector svc request log :
  (embed (embeddings svc) [req_query request] = Returns [] ->
   search_memory svc request log =
   (Raises IndexError, log ++ [CallEmbed [req_query request]])) /\
  (forall e,
     embed (embeddings svc) [req_query request] = Raises e ->
     search_memory svc request log =
     (Raises e, log ++ [CallEmbed [req_query request]])).
Proof.
  split.
  - intros Hembed. unfold search_memory, bind, await, raise. by rewrite Hembed.
  - intros e Hembed. unfold search_memory, bind, await. by rewrite Hembed.
Qed.

(** X11. [add_session_to_memory] raises [TypeError], and calls no
    collaborator, when some event has a content map whose [parts] is
    present but not iterable: null, a boolean or a number.  Such a
    [parts] is not replaced by the empty default, which is used only
    when the key is missing. *)
Theorem add_session_parts_not_iterable svc session_id user_id events
    app_name log event :
  event ∈ events -> parts_not_iterable event ->
  add_session_to_memory svc session_id user_id events app_name log =
  (Raises TypeError, log).
Proof.
  intros Hin Hbad. unfold add_session_to_memory, bind, lift.
  by rewrite (collect_lines_not_iterable events event Hin Hbad).
Qed.

(** X12. In the metadata [add_memory] stores for a chunk, the caller's
    metadata cannot replace [chunk_index], [chunk_start], [chunk_end]
    or [total_chunks], but it does replace the base fields: a [user_id]
    key in the caller's metadata is stored in place of the [user_id]
    argument, and likewise [timestamp] and [content_hash]. *)
Theorem add_memory_metadata_precedence svc content metadata
    user_id session_id agent_name log bytes chunks vectors :
  str_encode content = Returns bytes ->
  chunker_chunk (chunker svc) content = Returns chunks ->
  chunks <> [] ->
  embed (embeddings svc) (chunk_text <$> chunks) = Returns vectors ->
  exists metas,
    calls_from log
      (add_memory svc content metadata user_id session_id agent_name) =
      [CallChunk content; CallEmbed (chunk_text <$> chunks);
       CallStoreAdd vectors (chunk_text <$> chunks) metas] /\
    forall i c meta, chunks !! i = Some c -> metas !! i = Some meta ->
      meta !! py "chunk_index" = Some (VInt (chunk_index c)) /\
      meta !! py "chunk_start" = Some (VInt (chunk_start c)) /\
      meta !! py "chunk_end" = Some (VInt (chunk_end c)) /\
      meta !! py "total_chunks" = Some (VInt (len chunks)) /\
      forall k v,
        k ∈ [py "user_id"; py "session_id"; py "agent_name";
             py "timestamp"; py "content_hash"] ->
        default ∅ metadata !! k = Some v -> meta !! k = Some v.
Proof.
  intros Henc Hchunk Hne Hembed. eexists. split.
  - unfold calls_from.
    rewrite (add_memory_run _ _ _ _ _ _ _ bytes chunks vectors) by done.
    cbn [snd]. by rewrite drop_app_length.
  - intros i c meta Hc Hmeta. rewrite list_lookup_fmap, Hc in Hmeta.
    injection Hmeta as <-. rewrite chunk_meta_of_spec.
    repeat split.
    1-4: rewrite lookup_union_later_wins; unfold chunk_fields; split_keys.
    intros k v Hk Hv. rewrite lookup_union_later_wins, Hv.
    unfold chunk_fields.
    repeat (apply elem_of_cons in Hk as [-> | Hk]; [split_keys |]).
    by apply elem_of_nil in Hk.
Qed.

End ServiceFailures.

Lemma add_memory_unencodable_content_witness :
  @add_memory example_runtime example_service [97; 55296]%N None None None None []
  = (Raises UnicodeEncodeError, []).
Proof.
  apply (@add_memory_unencodable_content example_runtime example_service
           [97; 55296]%N None None None None [] 55296%N).
  - apply elem_of_cons. right. apply elem_of_cons. by left.
  - lia.
Defined.

Lemma add_memory_propagates_failure_witness :
  @add_memory example_runtime
    (mkMemoryService FailingEmbeddingProvider MockVectorStore
       (FixedSizeChunker_Chunker (mkFixedSizeChunker 100 20)))
    (py "Hello") None None None None [] =
  (Raises (CollaboratorError "unavailable"),
   [CallChunk (py "Hello"); CallEmbed [py "Hello"]]).
Proof.
  apply (proj1 (proj2 (@add_memory_propagates_failure example_runtime
           (mkMemoryService FailingEmbeddingProvider MockVectorStore
              (FixedSizeChunker_Chunker (mkFixedSizeChunker 100 20)))
           (py "Hello") None None None None [] (py "Hello")
           (CollaboratorError "unavailable") eq_refl))
         [mkChunk (py "Hello") 0 5 0]).
  - vm_compute. reflexivity.
  - discriminate.
  - reflexivity.
Defined.

Lemma add_memory_response_witness :
  fst (@add_memory example_runtime
         (mkMemoryService (MockEmbeddingProvider 1536)
            (ConstantVectorStore [py "a"; py "b"])
            (FixedSizeChunker_Chunker (mkFixedSizeChunker 100 20)))
         (py "Hello") None (Some (py "test-user")) None None []) =
  Returns (mkAddMemoryResponse [py "a"; py "b"] 1).
Proof.
  apply (@add_memory_response example_runtime
           (mkMemoryService (MockEmbeddingProvider 1536)
              (ConstantVectorStore [py "a"; py "b"])
              (FixedSizeChunker_Chunker (mkFixedSizeChunker 100 20)))
           (py "Hello") None
           (Some (py "test-user")) None None [] (py "Hello")
           [mkChunk (py "Hello") 0 5 0]
           [replicate 1536 0x1.999999999999ap-4%float]
           [py "a"; py "b"]).
  - reflexivity.
  - vm_compute. reflexivity.
  - discriminate.
  - reflexivity.
  - reflexivity.
Defined.

Lemma add_session_parts_not_iterable_witness :
  @add_session_to_memory example_runtime example_service
    (py "session-1") (py "user-1")
    [VDict {[ py "author" := VStr (py "user");
              py "content" := VDict {[ py "parts" := VNone ]} ]}]
    None [] =
  (Raises TypeError, []).
Proof.
  apply (@add_session_parts_not_iterable example_runtime example_service
           (py "session-1") (py "user-1")
           [VDict {[ py "author" := VStr (py "user");
                     py "content" := VDict {[ py "parts" := VNone ]} ]}]
           None []
           (VDict {[ py "author" := VStr (py "user");
                     py "content" := VDict {[ py "parts" := VNone ]} ]})).
  - apply elem_of_cons. by left.
  - exists {[ py "author" := VStr (py "user");
              py "content" := VDict {[ py "parts" := VNone ]} ]},
           {[ py "parts" := VNone ]}, VNone.
    repeat split; try reflexivity. by left.
Defined.

Lemma add_memory_metadata_precedence_witness :
  exists metas,
    calls_from []
      (@add_memory example_runtime example_service (py "Hello")
         (Some {[ py "user_id" := VStr (py "someone-else") ]})
         (Some (py "test-user")) None None) =
      [CallChunk (py "Hello"); CallEmbed [py "Hello"];
       CallStoreAdd [replicate 1536 0x1.999999999999ap-4%float] [py "Hello"] metas] /\
    forall meta, metas !! 0%nat = Some meta ->
      meta !! py "user_id" = Some (VStr (py "someone-else")).
Proof.
  destruct (@add_memory_metadata_precedence example_runtime example_service
              (py "Hello") (Some {[ py "user_id" := VStr (py "someone-else") ]})
              (Some (py "test-user")) None None [] (py "Hello")
              [mkChunk (py "Hello") 0 5 0] [replicate 1536 0x1.999999999999ap-4%float])
    as (metas & Hcalls & Hmetas).
  - reflexivity.
  - vm_compute. reflexivity.
  - discriminate.
  - reflexivity.
  - exists metas. split; [exact Hcalls |]. intros meta Hmeta.
    destruct (Hmetas 0%nat (mkChunk (py "Hello") 0 5 0) meta eq_refl Hmeta)
      as (_ & _ & _ & _ & Hcaller).
    apply Hcaller; [| reflexivity].
    apply elem_of_cons. by left.
Defined.

(** ** The memory service: deleting and closing *)

Lemma delete_filters_lookup user_id session_id agent_name k :
  delete_filters user_id session_id agent_name !! k =
  if decide (k = py "agent_name")
  then match agent_name with Some (c :: s) => Some (VStr (c :: s)) | _ => None end
  else if decide (k = py "session_id")
  then match session_id with Some (c :: s) => Some (VStr (c :: s)) | _ => None end
  else if decide (k = py "user_id") then Some (VStr user_id)
  else None.
Proof.
  unfold delete_filters. rewrite !set_if_truthy_optional.
  rewrite !lookup_union, !optional_field_lookup.
  repeat case_decide; subst; try key_clash; try done;
    rewrite ?lookup_singleton_eq, ?lookup_singleton_ne by done;
    by repeat match goal with |- context [match ?o with _ => _ end] =>
                destruct o as [[|? ?] |] end.
Qed.

(** X13. [delete_memories] always deletes by filter and never by id,
    and its filter always binds [user_id] to the given user, even an
    empty one: it cannot delete across users.  [session_id] and
    [agent_name] narrow the filter only when given and not empty, no
    other key is ever present, and the store's answer, count or
    exception, is the outcome. *)
Theorem delete_memories_scoped_to_user self user_id session_id agent_name log :
  exists filters,
    delete_memories self user_id session_id agent_name log =
      (store_delete self None (Some filters),
       log ++ [CallStoreDelete None (Some filters)]) /\
    filters !! py "user_id" = Some (VStr user_id) /\
    filters !! py "session_id" =
      match session_id with Some (c :: s) => Some (VStr (c :: s)) | _ => None end /\
    filters !! py "agent_name" =
      match agent_name with Some (c :: s) => Some (VStr (c :: s)) | _ => None end /\
    forall k, k <> py "user_id" -> k <> py "session_id" ->
      k <> py "agent_name" -> filters !! k = None.
Proof.
  exists (delete_filters user_id session_id agent_name).
  split; [done |].
  repeat split; try (intros k ? ? ?); rewrite delete_filters_lookup;
    repeat case_decide; try key_clash; done.
Qed.

(** X14. [close] closes the embedding provider first and the store
    second; when closing the provider raises, the exception is the
    outcome and the store is never closed. *)
Theorem close_order self log :
  (forall e, embeddings_close self = Raises e ->
     close self log = (Raises e, log ++ [CallEmbeddingsClose])) /\
  (embeddings_close self = Returns tt ->
     close self log =
     (store_close self, log ++ [CallEmbeddingsClose; CallStoreClose])).
Proof.
  split.
  - intros e He. unfold close, eff_bind, eff_await. by rewrite He.
  - intros He. unfold close, eff_bind, eff_await. rewrite He.
    by rewrite <- app_assoc.
Qed.

(** ** The Qdrant store *)

Lemma build_points_lookup ids vectors documents metadata i p :
  build_points ids vectors documents metadata !! i = Some p <->
  exists id_ vector doc meta,
    ids !! i = Some id_ /\ vectors !! i = Some vector /\
    documents !! i = Some doc /\ metadata !! i = Some meta /\
    p = mkPointStruct id_ vector (meta ∪ {[ py "content" := VStr doc ]}).
Proof.
  revert vectors documents metadata i.
  induction ids as [|id0 ids IH]; intros vectors documents metadata i.
  { cbn. split; [done | by intros (? & ? & ? & ? & ? & _)]. }
  destruct vectors as [|v0 vectors];
    [cbn; split; [done | by intros (? & ? & ? & ? & _ & ? & _)] |].
  destruct documents as [|d0 documents];
    [cbn; split; [done | by intros (? & ? & ? & ? & _ & _ & ? & _)] |].
  destruct metadata as [|m0 metadata];
    [cbn; split; [done | by intros (? & ? & ? & ? & _ & _ & _ & ? & _)] |].
  cbn [build_points]. destruct i as [|i]; cbn [lookup list_lookup].
  - unfold dict_update. split.
    + intros [= <-]. by exists id0, v0, d0, m0.
    + by intros (? & ? & ? & ? & [= <-] & [= <-] & [= <-] & [= <-] & ->).
  - apply IH.
Qed.

Lemma build_points_length ids vectors documents metadata :
  length (build_points ids vectors documents metadata) =
  Nat.min (Nat.min (length ids) (length vectors))
    (Nat.min (length documents) (length metadata)).
Proof.
  revert vectors documents metadata.
  induction ids as [|id0 ids IH]; intros [|v0 vectors] [|d0 documents]
    [|m0 metadata]; cbn [build_points length]; try lia.
  rewrite IH. lia.
Qed.

(** X15. [QdrantVectorStore.add] returns [[]] without calling the
    client when there is no vector.  Otherwise it upserts once and
    returns the ids, those given or one generated per vector; the points
    are as many as the shortest of ids, vectors, documents and metadata,
    and the payload of a point is its metadata plus the document under
    [content], a [content] key of the metadata taking the document's
    place.  An exception of the upsert is the outcome. *)
Theorem qdrant_add_points self uuid4 vectors documents metadata ids log :
  (vectors = [] ->
   qdrant_add self uuid4 vectors documents metadata ids log = (Returns [], log)) /\
  (vectors <> [] ->
   exists all_ids points,
     all_ids = match ids with
               | Some ids => ids
               | None => uuid4 <$> seq 0 (length vectors)
               end /\
     (ids = None -> length all_ids = length vectors) /\
     qdrant_add self uuid4 vectors documents metadata ids log =
       (outcome_bind (upsert (_client self) (collection_name self) points)
          (fun _ => Returns all_ids),
        log ++ [QUpsert (collection_name self) points]) /\
     length points =
       Nat.min (Nat.min (length all_ids) (length vectors))
         (Nat.min (length documents) (length metadata)) /\
     forall i p, points !! i = Some p ->
       exists doc meta,
         all_ids !! i = Some (point_id p) /\
         vectors !! i = Some (point_vector p) /\
         documents !! i = Some doc /\ metadata !! i = Some meta /\
         forall k, point_payload p !! k =
           match meta !! k with
           | Some v => Some v
           | None => if decide (k = py "content") then Some (VStr doc) else None
           end).
Proof.
  split.
  - by intros ->.
  - intros Hne.
    exists (match ids with
            | Some ids => ids
            | None => uuid4 <$> seq 0 (length vectors)
            end),
           (build_points
              (match ids with
               | Some ids => ids
               | None => uuid4 <$> seq 0 (length vectors)
               end) vectors documents metadata).
    split; [reflexivity |].
    split; [intros ->; by rewrite length_fmap, length_seq |].
    split; [| split].
    + unfold qdrant_add. destruct vectors as [|v vectors]; [done |].
      cbn [is_empty]. unfold eff_bind, eff_await, eff_ret.
      destruct ids as [ids |];
        by destruct (upsert (_client self) (collection_name self) _).
    + destruct ids; apply build_points_length.
    + intros i p Hp.
      assert (exists id_ vector doc meta,
        match ids with
        | Some ids => ids
        | None => uuid4 <$> seq 0 (length vectors)
        end !! i = Some id_ /\ vectors !! i = Some vector /\
        documents !! i = Some doc /\ metadata !! i = Some meta /\
        p = mkPointStruct id_ vector (meta ∪ {[ py "content" := VStr doc ]}))
        as (id_ & vector & doc & meta & Hid & Hv & Hd & Hm & ->).
      { destruct ids; by apply build_points_lookup. }
      exists doc, meta. cbn [point_id point_vector point_payload].
      do 4 (split; [done |]). intros k. rewrite lookup_union.
      rewrite lookup_singleton.
      destruct (meta !! k); repeat case_decide; by subst.
Qed.

Lemma build_conditions_raises items k v :
  (k, v) ∈ items -> v <> VNone -> MatchValue v = Raises ValidationError ->
  build_conditions items = Raises ValidationError.
Proof.
  revert k v. induction items as [|[k0 v0] items IH];
    intros k v; [by intros ?%elem_of_nil |].
  intros Hin Hv Hrej. cbn [build_conditions].
  apply elem_of_cons in Hin as [[= <- <-] | Hin].
  - by destruct v.
  - rewrite (IH k v Hin Hv Hrej). by destruct v0.
Qed.

Lemma build_conditions_returns items :
  NoDup items.*1 ->
  (forall k v, (k, v) ∈ items -> v = VNone \/ MatchValue v = Returns v) ->
  exists conditions,
    build_conditions items = Returns conditions /\
    forall k v, conditions !! k = Some v <-> (k, v) ∈ items /\ v <> VNone.
Proof.
  induction items as [|[k0 v0] items IH]; intros Hdup Hok.
  { exists ∅. split; [done |]. intros k v. rewrite lookup_empty.
    split; [done | by intros [?%elem_of_nil _]]. }
  cbn in Hdup. apply NoDup_cons in Hdup as [Hk0 Hdup].
  assert (forall k v, (k, v) ∈ items ->
            v = VNone \/ MatchValue v = Returns v) as Hok'.
  { intros k v Hin. apply (Hok k v). by apply elem_of_cons; right. }
  destruct (IH Hdup Hok') as (conditions & Hbuild & Hlookup).
  cbn [build_conditions]. rewrite Hbuild.
  assert ((k0, v0) ∈ (k0, v0) :: items) as Hhead
    by (by apply elem_of_cons; left).
  destruct (Hok k0 v0 Hhead) as [-> | Hacc].
  - exists conditions. split; [done |]. intros k v. rewrite Hlookup.
    rewrite elem_of_cons. split; [by intros [? ?]; split; [right |] |].
    intros [[[= -> ->] | Hin] Hv]; done.
  - exists (<[k0 := v0]> conditions). split; [by destruct v0 |].
    intros k v. rewrite lookup_insert_Some, Hlookup, elem_of_cons. split.
    + intros [[<- <-] | [Hne [Hin Hv]]].
      * split; [by left | by destruct v0].
      * split; [by right | done].
    + intros [[[= -> ->] | Hin] Hv]; [by left | right].
      split; [| done]. intros <-. apply Hk0.
      apply list_elem_of_fmap. by exists (k0, v).
Qed.

(** The filter is not built when a value that is not [None] is one that
    [MatchValue] rejects. *)
Lemma search_filter_raises filters d k v :
  filters = Some d -> d !! k = Some v -> v <> VNone ->
  MatchValue v = Raises ValidationError ->
  search_filter filters = Raises ValidationError /\
  dict_or_none d = Some d /\
  build_conditions (map_to_list d) = Raises ValidationError.
Proof.
  intros -> Hk Hv Hrej. cbn [search_filter].
  assert (d <> ∅) as Hne by (intros ->; by rewrite lookup_empty in Hk).
  assert (build_conditions (map_to_list d) = Raises ValidationError) as Hb.
  { apply (build_conditions_raises _ k v); [| done ..].
    by apply elem_of_map_to_list. }
  by rewrite (dict_or_none_nonempty _ Hne), Hb.
Qed.

(** The filter when [MatchValue] accepts every value that is not
    [None]. *)
Lemma search_filter_returns filters :
  (forall d k v, filters = Some d -> d !! k = Some v ->
     v = VNone \/ MatchValue v = Returns v) ->
  exists qdrant_filter,
    search_filter filters = Returns qdrant_filter /\
    (qdrant_filter = None <->
     forall d, filters = Some d -> forall k v, d !! k = Some v -> v = VNone) /\
    (forall must, qdrant_filter = Some must ->
     exists d, filters = Some d /\ dict_or_none d = Some d /\
       build_conditions (map_to_list d) = Returns must /\
       forall k v, must !! k = Some v <-> d !! k = Some v /\ v <> VNone).
Proof.
  intros Hok. destruct filters as [d |]; cbn [search_filter];
    [| exists None; by repeat split].
  destruct (dict_or_none d) as [d' |] eqn:Hd.
  - assert (d' = d) as -> by (unfold dict_or_none in Hd;
      destruct (map_to_list d); congruence).
    assert (forall k v, (k, v) ∈ map_to_list d ->
              v = VNone \/ MatchValue v = Returns v) as Hitems.
    { intros k v Hin%elem_of_map_to_list. by apply (Hok d k v). }
    destruct (build_conditions_returns (map_to_list d)
                (NoDup_fst_map_to_list d) Hitems)
      as (conditions & Hbuild & Hlookup).
    rewrite Hbuild. cbn [outcome_bind].
    exists (dict_or_none conditions). split; [done |]. split.
    + rewrite dict_or_none_empty. split.
      * intros -> d0 [= <-] k v Hk.
        destruct (is_VNone v) eqn:Hv; [by destruct v |].
        assert ((∅ : gmap str pyval) !! k = Some v) as Hc.
        { apply Hlookup. split; [by apply elem_of_map_to_list |].
          by intros ->. }
        by rewrite lookup_empty in Hc.
      * intros Hnone. apply map_eq. intros k. rewrite lookup_empty.
        destruct (conditions !! k) as [v |] eqn:Hc; [| done].
        apply Hlookup in Hc as [Hk%elem_of_map_to_list Hv].
        by destruct (Hv (Hnone d eq_refl k v Hk)).
    + intros must Hmust. exists d. split; [done |]. split; [done |].
      assert (must = conditions) as ->.
      { unfold dict_or_none in Hmust.
        destruct (map_to_list conditions); congruence. }
      split; [done |]. intros k v. rewrite Hlookup.
      by rewrite elem_of_map_to_list.
  - apply dict_or_none_empty in Hd as ->. exists None. split; [done |].
    split; [| done]. split; [| done].
    intros _ d0 [= <-] k v Hk. by rewrite lookup_empty in Hk.
Qed.

Section QdrantProperties.
Context `{PyRuntime}.

(** X16. What [QdrantVectorStore.search] makes of a payload that [add]
    stored for a document and its metadata: when the metadata has no
    [content] key, the result's [content] is the document and its
    [metadata] is the metadata, unchanged; when the metadata has a
    [content] key, the result's [content] is that value, the document is
    lost, and the key is gone from the result's metadata. *)
Theorem qdrant_payload_round_trip id_ score doc meta :
  let payload := dict_update {[ py "content" := VStr doc ]} meta in
  let result := result_of_point (mkScoredPoint id_ score (Some payload)) in
  (meta !! py "content" = None ->
   result_content result = VStr doc /\ result_metadata result = meta) /\
  (forall v, meta !! py "content" = Some v ->
   result_content result = v /\
   result_metadata result = delete (py "content") meta).
Proof.
  cbv zeta. unfold result_of_point, dict_update.
  cbn [sp_payload result_content result_metadata default].
  assert (meta ∪ {[ py "content" := VStr doc ]} <> (∅ : gmap str pyval)) as Hne.
  { intros Hempty.
    assert ((meta ∪ {[ py "content" := VStr doc ]}) !! py "content" = None) as Hc
      by (by rewrite Hempty).
    rewrite lookup_union, lookup_singleton_eq in Hc.
    by destruct (meta !! py "content"). }
  rewrite (dict_or_none_nonempty _ Hne).
  unfold id. split.
  - intros Hmeta. split.
    + by rewrite lookup_union, Hmeta, lookup_singleton_eq.
    + rewrite delete_union, delete_singleton_eq, (right_id ∅ (∪)).
      by apply delete_id.
  - intros v Hmeta. split.
    + by rewrite lookup_union, Hmeta, lookup_singleton_eq.
    + by rewrite delete_union, delete_singleton_eq, (right_id ∅ (∪)).
Qed.

(** X17. [QdrantVectorStore.search] builds a condition
    [MatchValue(value)] for each entry of [filters] whose value is not
    [None].  When one of these values is not a bool, an int or a str,
    building it raises [ValidationError] and the client is not called.
    Otherwise it queries once, with [top_k] as the limit and the score
    threshold unchanged, and returns one result per point in the
    client's order; the query's filter has one condition for each entry
    whose value is not [None], and when [filters] is [None], empty or
    holds [None] values only, the query has no filter at all. *)
Theorem qdrant_search_filter self vector top_k filters score_threshold log :
  ((exists d k v, filters = Some d /\ d !! k = Some v /\ v <> VNone /\
      MatchValue v = Raises ValidationError) ->
   qdrant_search self vector top_k filters score_threshold log =
   (Raises ValidationError, log)) /\
  ((forall d k v, filters = Some d -> d !! k = Some v ->
      v = VNone \/ MatchValue v = Returns v) ->
   exists qdrant_filter,
     qdrant_search self vector top_k filters score_threshold log =
       (outcome_bind
          (query_points (_client self) (collection_name self) vector top_k
             qdrant_filter score_threshold)
          (fun points => Returns (result_of_point <$> points)),
        log ++ [QQueryPoints (collection_name self) vector top_k qdrant_filter
                  score_threshold]) /\
     (qdrant_filter = None <->
      forall d, filters = Some d -> forall k v, d !! k = Some v -> v = VNone) /\
     (forall must, qdrant_filter = Some must ->
      exists d, filters = Some d /\
        forall k v, must !! k = Some v <-> d !! k = Some v /\ v <> VNone)).
Proof.
  split.
  - intros (d & k & v & Hf & Hk & Hv & Hrej).
    destruct (search_filter_raises filters d k v Hf Hk Hv Hrej) as [Hs _].
    unfold qdrant_search, eff_bind, eff_lift. by rewrite Hs.
  - intros Hok.
    destruct (search_filter_returns filters Hok)
      as (qdrant_filter & Hs & Hnone & Hsome).
    exists qdrant_filter. split; [| split; [done |]].
    + unfold qdrant_search, eff_bind, eff_lift, eff_await, eff_ret.
      rewrite Hs. by destruct (query_points _ _ _ _ _ _).
    + intros must Hmust.
      destruct (Hsome must Hmust) as (d & Hf & _ & _ & Hlookup). by exists d.
Qed.

End QdrantProperties.

Lemma qdrant_delete_no_ids self ids filters :
  ids = None \/ ids = Some [] ->
  qdrant_delete self ids filters = qdrant_delete self None filters.
Proof. by intros [-> | ->]. Qed.

(** X18. [QdrantVectorStore.delete] with a non-empty list of ids
    deletes those points, whatever the filters, and returns the number
    of ids without asking the store how many existed.  Without ids it
    builds a condition [MatchValue(value)] for each filter value that is
    not [None]: when one of these values is not a bool, an int or a str
    that raises [ValidationError] and nothing is counted or deleted;
    otherwise it counts the points matching the conditions, deletes by
    them and returns the count, a failing count ending the call before
    the deletion.  Without ids and without a value other than [None] in
    the filters it returns [0] and calls nothing: it never deletes
    without a condition. *)
Theorem qdrant_delete_cases self ids filters log :
  (forall id_ ids', ids = Some (id_ :: ids') ->
     qdrant_delete self ids filters log =
     (outcome_bind
        (client_delete (_client self) (collection_name self)
           (PointIdsList (id_ :: ids')))
        (fun _ => Returns (len (id_ :: ids'))),
      log ++ [QDelete (collection_name self) (PointIdsList (id_ :: ids'))])) /\
  (ids = None \/ ids = Some [] ->
   (exists d k v, filters = Some d /\ d !! k = Some v /\ v <> VNone /\
      MatchValue v = Raises ValidationError) ->
   qdrant_delete self ids filters log = (Raises ValidationError, log)) /\
  (ids = None \/ ids = Some [] ->
   (forall d, filters = Some d -> forall k v, d !! k = Some v -> v = VNone) ->
   qdrant_delete self ids filters log = (Returns 0, log)) /\
  (ids = None \/ ids = Some [] ->
   forall d, filters = Some d ->
   (forall k v, d !! k = Some v -> v = VNone \/ MatchValue v = Returns v) ->
   (exists k v, d !! k = Some v /\ v <> VNone) ->
   exists must,
     (forall k v, must !! k = Some v <-> d !! k = Some v /\ v <> VNone) /\
     (forall n,
        count (_client self) (collection_name self) must = Returns n ->
        qdrant_delete self ids filters log =
        (outcome_bind
           (client_delete (_client self) (collection_name self)
              (FilterSelector must))
           (fun _ => Returns n),
         log ++ [QCount (collection_name self) must;
                 QDelete (collection_name self) (FilterSelector must)])) /\
     (forall e,
        count (_client self) (collection_name self) must = Raises e ->
        qdrant_delete self ids filters log =
        (Raises e, log ++ [QCount (collection_name self) must]))).
Proof.
  split; [| split; [| split]].
  - intros id_ ids' ->. unfold qdrant_delete, eff_bind, eff_await, eff_ret.
    by destruct (client_delete _ _ _).
  - intros Hids (d & k & v & Hf & Hk & Hv & Hrej).
    rewrite (qdrant_delete_no_ids _ _ _ Hids).
    destruct (search_filter_raises filters d k v Hf Hk Hv Hrej)
      as (_ & Hd & Hb).
    subst filters. unfold qdrant_delete, eff_bind, eff_lift.
    by rewrite Hd, Hb.
  - intros Hids Hnone. rewrite (qdrant_delete_no_ids _ _ _ Hids).
    assert (forall d k v, filters = Some d -> d !! k = Some v ->
              v = VNone \/ MatchValue v = Returns v) as Hok.
    { intros d k v Hf Hk. left. by apply (Hnone d Hf k v). }
    destruct (search_filter_returns filters Hok)
      as (qdrant_filter & Hs & Hqnone & _).
    pose proof (proj2 Hqnone Hnone) as ->.
    destruct filters as [d |]; [| done].
    cbn [qdrant_delete search_filter] in *.
    destruct (dict_or_none d) as [d' |] eqn:Hd; [| done].
    assert (d' = d) as -> by (unfold dict_or_none in Hd;
      destruct (map_to_list d); congruence).
    unfold eff_bind, eff_lift, eff_ret.
    destruct (build_conditions (map_to_list d)) as [conditions | |];
      cbn [outcome_bind] in Hs; [| done ..].
    injection Hs as Hs. by rewrite Hs.
  - intros Hids d Hf Hok (k & v & Hk & Hv).
    rewrite (qdrant_delete_no_ids _ _ _ Hids).
    assert (forall d0 k0 v0, filters = Some d0 -> d0 !! k0 = Some v0 ->
              v0 = VNone \/ MatchValue v0 = Returns v0) as Hok'.
    { intros d0 k0 v0 Hf0 Hk0. rewrite Hf in Hf0. injection Hf0 as <-.
      by apply (Hok k0 v0). }
    destruct (search_filter_returns filters Hok')
      as (qdrant_filter & Hs & Hqnone & Hqsome).
    destruct qdrant_filter as [must |];
      [| by destruct Hv; apply (proj1 Hqnone eq_refl d Hf k v Hk)].
    destruct (Hqsome must eq_refl) as (d0 & Hf0 & Hd & Hb & Hlookup).
    rewrite Hf in Hf0. injection Hf0 as <-.
    exists must. split; [done |].
    assert (dict_or_none must = Some must) as Hmust.
    { apply dict_or_none_nonempty. intros ->.
      assert ((∅ : gmap str pyval) !! k = Some v) as Hc by (by apply Hlookup).
      by rewrite lookup_empty in Hc. }
    subst filters.
    unfold qdrant_delete, eff_bind, eff_lift, eff_await, eff_ret.
    rewrite Hd, Hb, Hmust. split.
    + intros n ->. rewrite <- app_assoc.
      by destruct (client_delete _ _ _).
    + by intros e ->.
Qed.

(** X19. [QdrantVectorStore.health_check] asks the client for the
    collections once.  It returns [True] when that succeeds and [False]
    when it raises an [Exception], whatever it is.  It does raise when
    the call raises an exception that is not an [Exception], such as the
    [asyncio.CancelledError] of a cancelled task, which
    [except (UnexpectedResponse, Exception)] does not catch: that is the
    only way it raises. *)
Theorem qdrant_health_check_outcomes self log :
  snd (qdrant_health_check self log) = log ++ [QGetCollections] /\
  (forall collections,
     get_collections (_client self) = Returns collections ->
     fst (qdrant_health_check self log) = Returns true) /\
  (forall e,
     get_collections (_client self) = Raises e -> is_Exception e = true ->
     fst (qdrant_health_check self log) = Returns false) /\
  (forall e,
     get_collections (_client self) = Raises e -> is_Exception e = false ->
     fst (qdrant_health_check self log) = Raises e) /\
  (forall e,
     fst (qdrant_health_check self log) = Raises e ->
     is_Exception e = false /\ get_collections (_client self) = Raises e) /\
  (let cancelled :=
     mkQdrantVectorStore (collection_name self) (dimension self)
       (mkQdrantClient (Raises CancelledError)
          (create_collection (_client self))
          (create_payload_index (_client self)) (upsert (_client self))
          (query_points (_client self)) (count (_client self))
          (client_delete (_client self)) (client_close (_client self))) in
   qdrant_health_check cancelled log =
   (Raises CancelledError, log ++ [QGetCollections])).
Proof.
  unfold qdrant_health_check, eff_catch, eff_bind, eff_await, eff_ret.
  split; [| split; [| split; [| split; [| split]]]].
  - destruct (get_collections (_client self)) as [? | e |]; cbn; try done.
    by destruct (is_Exception e).
  - by intros collections ->.
  - by intros e -> ->.
  - by intros e -> ->.
  - intros e. destruct (get_collections (_client self)) as [? | e' |];
      cbn; try done.
    destruct (is_Exception e') eqn:He; cbn; [done |]. by intros [= <-].
  - reflexivity.
Qed.

(** X20. [QdrantVectorStore.initialize] creates nothing when the
    collection is already listed.  Otherwise it creates the collection
    with the store's dimension and then the payload indexes of
    [user_id], [session_id] and [agent_name], in that order; when
    creating the collection raises, no index is created and the
    exception is the outcome. *)
Theorem qdrant_initialize_cases self log collections :
  get_collections (_client self) = Returns collections ->
  (collection_name self ∈ collections ->
   qdrant_initialize self log = (Returns tt, log ++ [QGetCollections])) /\
  (collection_name self ∉ collections ->
   (forall e,
      create_collection (_client self) (collection_name self) (dimension self)
        = Raises e ->
      qdrant_initialize self log =
      (Raises e,
       log ++ [QGetCollections;
               QCreateCollection (collection_name self) (dimension self)])) /\
   (create_collection (_client self) (collection_name self) (dimension self)
      = Returns tt ->
    (forall field,
       create_payload_index (_client self) (collection_name self) field
         = Returns tt) ->
    qdrant_initialize self log =
    (Returns tt,
     log ++ [QGetCollections;
             QCreateCollection (collection_name self) (dimension self);
             QCreatePayloadIndex (collection_name self) (py "user_id");
             QCreatePayloadIndex (collection_name self) (py "session_id");
             QCreatePayloadIndex (collection_name self) (py "agent_name")]))).
Proof.
  intros Hget. unfold qdrant_initialize, eff_bind, eff_await, eff_ret.
  rewrite Hget. split.
  - intros Hin. by rewrite bool_decide_eq_true_2.
  - intros Hnotin. rewrite bool_decide_eq_false_2 by done. split.
    + intros e ->. by rewrite <- app_assoc.
    + intros -> Hindex. cbn [create_indexes].
      unfold eff_bind, eff_await, eff_ret. rewrite !Hindex.
      by rewrite <- !app_assoc.
Qed.

Lemma qdrant_initialize_cases_witness :
  qdrant_initialize
    (mkQdrantVectorStore (py "kagent-memories") 1536
       (mkQdrantClient (Returns [py "kagent-memories"])
          (fun _ _ => Returns tt) (fun _ _ => Returns tt)
          (fun _ _ => Returns tt) (fun _ _ _ _ _ => Returns [])
          (fun _ _ => Returns 0) (fun _ _ => Returns tt) (Returns tt))) [] =
  (Returns tt, [QGetCollections]).
Proof.
  apply (proj1 (qdrant_initialize_cases
           (mkQdrantVectorStore (py "kagent-memories") 1536
              (mkQdrantClient (Returns [py "kagent-memories"])
                 (fun _ _ => Returns tt) (fun _ _ => Returns tt)
                 (fun _ _ => Returns tt) (fun _ _ _ _ _ => Returns [])
                 (fun _ _ => Returns 0) (fun _ _ => Returns tt) (Returns tt)))
           [] [py "kagent-memories"] eq_refl)).
  apply elem_of_cons. by left.
Defined.

Lemma delete_filters_conditions user_id session_id agent_name :
  let filters := delete_filters user_id session_id agent_name in
  filters !! py "user_id" = Some (VStr user_id) /\
  dict_or_none filters = Some filters /\
  build_conditions (map_to_list filters) = Returns filters.
Proof.
  cbv zeta.
  assert (delete_filters user_id session_id agent_name !! py "user_id"
          = Some (VStr user_id)) as Huser.
  { rewrite delete_filters_lookup. repeat case_decide; try key_clash; done. }
  assert (forall k v,
            delete_filters user_id session_id agent_name !! k = Some v ->
            exists s, v = VStr s) as Hstr.
  { intros k v Hk. rewrite delete_filters_lookup in Hk.
    repeat case_decide;
      repeat match goal with H : context [match ?o with _ => _ end] |- _ =>
               destruct o as [[|? ?] |] end;
      try done; injection Hk as <-; eauto. }
  split; [done |].
  assert (forall d k v,
            Some (delete_filters user_id session_id agent_name) = Some d ->
            d !! k = Some v -> v = VNone \/ MatchValue v = Returns v) as Hok.
  { intros d k v [= <-] Hk. right. by destruct (Hstr k v Hk) as [s ->]. }
  destruct (search_filter_returns _ Hok)
    as (qdrant_filter & _ & Hnone & Hsome).
  destruct qdrant_filter as [must |].
  - destruct (Hsome must eq_refl) as (d & [= <-] & Hd & Hb & Hlookup).
    split; [done |]. rewrite Hb. f_equal. apply map_eq. intros k.
    apply option_eq. intros v. rewrite Hlookup. split; [by intros [? _] |].
    intros Hk. split; [done |]. by destruct (Hstr k v Hk) as [s ->].
  - by pose proof (proj1 Hnone eq_refl _ eq_refl _ _ Huser).
Qed.

(** X21. The filters that [delete_memories] builds make
    [QdrantVectorStore.delete] count and then delete by a filter that is
    those very filters, with its condition on [user_id]: through the
    service the Qdrant store never deletes by id, never skips the
    deletion, and never deletes points of another user. *)
Theorem delete_memories_on_qdrant self user_id session_id agent_name log n :
  let filters := delete_filters user_id session_id agent_name in
  count (_client self) (collection_name self) filters = Returns n ->
  filters !! py "user_id" = Some (VStr user_id) /\
  qdrant_delete self None (Some filters) log =
  (outcome_bind
     (client_delete (_client self) (collection_name self)
        (FilterSelector filters))
     (fun _ => Returns n),
   log ++ [QCount (collection_name self) filters;
           QDelete (collection_name self) (FilterSelector filters)]).
Proof.
  cbv zeta. intros Hcount.
  destruct (delete_filters_conditions user_id session_id agent_name)
    as (Huser & Hd & Hb).
  split; [done |].
  unfold qdrant_delete, eff_bind, eff_lift, eff_await, eff_ret.
  rewrite Hd, Hb, Hd, Hcount.
  rewrite <- app_assoc. by destruct (client_delete _ _ _).
Qed.

Lemma delete_memories_on_qdrant_witness :
  qdrant_delete
    (mkQdrantVectorStore (py "kagent-memories") 1536
       (mkQdrantClient (Returns [py "kagent-memories"])
          (fun _ _ => Returns tt) (fun _ _ => Returns tt)
          (fun _ _ => Returns tt) (fun _ _ _ _ _ => Returns [])
          (fun _ _ => Returns 2) (fun _ _ => Returns tt) (Returns tt)))
    None (Some (delete_filters (py "u") None None)) [] =
  (Returns 2,
   [QCount (py "kagent-memories") (delete_filters (py "u") None None);
    QDelete (py "kagent-memories")
      (FilterSelector (delete_filters (py "u") None None))]).
Proof.
  apply (delete_memories_on_qdrant
           (mkQdrantVectorStore (py "kagent-memories") 1536
              (mkQdrantClient (Returns [py "kagent-memories"])
                 (fun _ _ => Returns tt) (fun _ _ => Returns tt)
                 (fun _ _ => Returns tt) (fun _ _ _ _ _ => Returns [])
                 (fun _ _ => Returns 2) (fun _ _ => Returns tt) (Returns tt)))
           (py "u") None None [] 2 eq_refl).
Defined.

(** ** The OpenAI provider and the routes *)

Lemma str_contains_spec s sub :
  str_contains s sub = true <-> exists k, occurs_at s sub k.
Proof.
  unfold str_contains. rewrite Z.leb_le.
  destruct (rfind_spec s sub) as [[Hr Hnone] | (Hr & Hocc & _)].
  - rewrite Hr. split; [lia | intros [k Hk]; by apply Hnone in Hk].
  - split; [eauto | done].
Qed.

Lemma eff_await_ret {C A} (c : C) (answer : outcome A) log :
  eff_bind (eff_await c answer) (fun x => eff_ret x) log = (answer, log ++ [c]).
Proof. unfold eff_bind, eff_await, eff_ret. by destruct answer. Qed.

(** X22. For a provider made by [OpenAIEmbeddingProvider.__init__]:
    [embed] of no text returns [[]] without a request; otherwise it
    makes one request for the texts.  The request carries [dimensions]
    exactly when dimensions were given and the model's name contains
    [text-embedding-3], and then [get_dimension] is that number: the
    dimension reported is the dimension requested.  When none is sent,
    [get_dimension] is the model's entry in [MODEL_DIMENSIONS], or 1536
    for a model that has none. *)
Theorem openai_dimension_consistent client name dimensions texts log :
  let self := OpenAIEmbeddingProvider_init client name dimensions in
  openai_embed self [] log = (Returns [], log) /\
  (texts <> [] ->
   exists sent,
     openai_embed self texts log =
       (embeddings_create client name texts sent,
        log ++ [OEmbeddingsCreate name texts sent]) /\
     (forall d, sent = Some d <->
        dimensions = Some d /\
        exists k, occurs_at name (py "text-embedding-3") k) /\
     (forall d, sent = Some d -> get_dimension self = d) /\
     (sent = None ->
      get_dimension self = default 1536 (MODEL_DIMENSIONS !! name))).
Proof.
  cbv zeta. split; [done |]. intros Hne.
  unfold OpenAIEmbeddingProvider_init, openai_embed, get_dimension.
  cbn [model _dimensions _openai].
  destruct texts as [|t texts]; [done |]. cbn [is_empty].
  pose proof (str_contains_spec name (py "text-embedding-3")) as Hspec.
  destruct dimensions as [d |];
    [destruct (str_contains name (py "text-embedding-3")) eqn:Hc |];
    cbn [negb]; try rewrite Hc; rewrite eff_await_ret;
    (eexists; split; [reflexivity |]).
  - split; [| split; [by intros ? [= <-] | done]]. intros d'. split.
    + intros [= <-]. split; [done | by apply Hspec].
    + by intros [[= <-] _].
  - split; [| split; done]. intros d'. split; [done |].
    intros [_ Hk]. apply Hspec in Hk. done.
  - split; [| split; done]. intros d'. split; [done | by intros [? _]].
Qed.

Lemma chunker_init_invalid cs ov :
  cs <= 0 \/ ov < 0 \/ ov >= cs ->
  exists msg, FixedSizeChunker_init cs ov = inl (ValueError msg).
Proof.
  intros Hbad. unfold FixedSizeChunker_init.
  destruct (Z.leb_spec cs 0); [eauto |].
  destruct (Z.ltb_spec ov 0); [eauto |].
  destruct (Z.geb_spec ov cs); [eauto | lia].
Qed.

Lemma chunker_init_valid cs ov :
  0 < cs -> 0 <= ov < cs ->
  FixedSizeChunker_init cs ov = inr (mkFixedSizeChunker cs ov).
Proof.
  intros Hcs Hov. unfold FixedSizeChunker_init.
  destruct (Z.leb_spec cs 0); [lia |].
  destruct (Z.ltb_spec ov 0); [lia |].
  destruct (Z.geb_spec ov cs); [lia | done].
Qed.

(** X23. [create_memory_service] raises [ValueError] without touching
    Qdrant when the OpenAI key is empty, and also when the chunk
    settings are ones [FixedSizeChunker] rejects: the collection is not
    created for a service that cannot be built.  Otherwise it
    initialises a store over the configured collection whose dimension
    is the configured [embedding_dimensions] when the model's name
    contains [text-embedding-3], and the model's default otherwise, and
    the service it returns has a chunker with the configured, valid,
    sizes. *)
Theorem create_memory_service_cases settings openai_api_key openai_client
    qdrant_client log :
  (openai_api_key = [] ->
   exists msg,
     create_memory_service settings openai_api_key openai_client qdrant_client
       log = (Raises (ValueError msg), log)) /\
  (openai_api_key <> [] ->
   settings_chunk_size settings <= 0 \/ settings_chunk_overlap settings < 0 \/
     settings_chunk_overlap settings >= settings_chunk_size settings ->
   exists msg,
     create_memory_service settings openai_api_key openai_client qdrant_client
       log = (Raises (ValueError msg), log)) /\
  (openai_api_key <> [] ->
   0 < settings_chunk_size settings ->
   0 <= settings_chunk_overlap settings < settings_chunk_size settings ->
   exists store,
     collection_name store = qdrant_collection settings /\
     _client store = qdrant_client /\
     ((exists k, occurs_at (embedding_model settings) (py "text-embedding-3") k) ->
      dimension store = embedding_dimensions settings) /\
     ((forall k, ~ occurs_at (embedding_model settings) (py "text-embedding-3") k) ->
      dimension store =
        default 1536 (MODEL_DIMENSIONS !! embedding_model settings)) /\
     snd (create_memory_service settings openai_api_key openai_client
            qdrant_client log) = snd (qdrant_initialize store log) /\
     (fst (qdrant_initialize store log) = Returns tt ->
      exists parts,
        fst (create_memory_service settings openai_api_key openai_client
               qdrant_client log) = Returns parts /\
        parts_vector_store parts = store /\
        parts_chunker parts =
          mkFixedSizeChunker (settings_chunk_size settings)
            (settings_chunk_overlap settings) /\
        valid_config (parts_chunker parts))).
Proof.
  split; [| split].
  - intros ->. eexists. reflexivity.
  - intros Hkey Hbad. unfold create_memory_service.
    destruct openai_api_key; [done |]. cbn [is_empty].
    destruct (chunker_init_invalid _ _ Hbad) as (msg & ->). by exists msg.
  - intros Hkey Hcs Hov. unfold create_memory_service.
    destruct openai_api_key; [done |]. cbn [is_empty].
    rewrite (chunker_init_valid _ _ Hcs Hov). cbv zeta.
    pose proof (str_contains_spec (embedding_model settings)
                  (py "text-embedding-3")) as Hspec.
    set (provider := OpenAIEmbeddingProvider_init openai_client
                       (embedding_model settings)
                       (Some (embedding_dimensions settings))).
    assert (get_dimension provider =
            if str_contains (embedding_model settings) (py "text-embedding-3")
            then embedding_dimensions settings
            else default 1536 (MODEL_DIMENSIONS !! embedding_model settings))
      as Hdim.
    { subst provider. unfold get_dimension, OpenAIEmbeddingProvider_init.
      cbn [_dimensions model].
      by destruct (str_contains (embedding_model settings)
                     (py "text-embedding-3")). }
    set (store := mkQdrantVectorStore (qdrant_collection settings)
                    (get_dimension provider) qdrant_client).
    exists store. split; [done |]. split; [done |].
    split; [| split; [| split]].
    + intros Hk. cbn [store dimension]. rewrite Hdim.
      by rewrite (proj2 Hspec Hk).
    + intros Hnone. cbn [store dimension]. rewrite Hdim.
      destruct (str_contains (embedding_model settings)
                  (py "text-embedding-3")); [| done].
      destruct (proj1 Hspec eq_refl) as [k Hk]. by apply Hnone in Hk.
    + unfold eff_bind, eff_ret.
      by destruct (qdrant_initialize store log) as [[[] | e |] log'].
    + intros Hinit. unfold eff_bind, eff_ret.
      destruct (qdrant_initialize store log) as [o log']. cbn [fst] in Hinit.
      subst o. eexists. split; [reflexivity |].
      cbn [parts_vector_store parts_chunker]. split; [done |].
      split; [done |]. unfold valid_config. cbn [chunk_size overlap]. lia.
Qed.

Section RouteProperties.
Context `{PyRuntime}.

Lemma set_if_truthy_py_or key body header d :
  set_if_truthy key (py_or body header) d =
  set_if_truthy key (effective_user body header) d.
Proof. by destruct body as [[|? ?] |], header as [[|? ?] |]. Qed.

Lemma add_memory_user_ext svc content metadata user_id user_id'
    session_id agent_name log :
  (forall key d, set_if_truthy key user_id d = set_if_truthy key user_id' d) ->
  add_memory svc content metadata user_id session_id agent_name log =
  add_memory svc content metadata user_id' session_id agent_name log.
Proof.
  intros Hext. unfold add_memory, bind, lift, content_hash_of, base_metadata_of.
  destruct (str_encode content); cbn [outcome_bind]; try done.
  by rewrite Hext.
Qed.

(** X24. The handlers of [POST /api/memory] and of
    [POST /api/memory/search] resolve the user in the same way: the
    request body's [user_id] when it is not empty, else the [X-User-Id]
    header when it is not empty, else no user.  Each behaves as the
    service method called with that user, so a header never overrides a
    user named in the body. *)
Theorem routes_resolve_user service add_request search_request x_user_id log :
  route_add_memory service add_request x_user_id log =
    add_memory service (add_content add_request)
      (Some (add_metadata add_request))
      (effective_user (add_user_id add_request) x_user_id)
      (add_session_id add_request) (add_agent_name add_request) log /\
  route_search_memory service search_request x_user_id log =
    search_memory service
      (mkMemorySearchRequest (req_query search_request)
         (effective_user (req_user_id search_request) x_user_id)
         (req_session_id search_request) (req_agent_name search_request)
         (req_top_k search_request) (req_score_threshold search_request)
         (req_filters search_request)) log.
Proof.
  split.
  - unfold route_add_memory. apply add_memory_user_ext.
    intros key d. apply set_if_truthy_py_or.
  - unfold route_search_memory.
    destruct search_request as [q u s a k t f]. cbn [req_user_id req_query
      req_session_id req_agent_name req_top_k req_score_threshold req_filters].
    by destruct u as [[|? ?] |], x_user_id as [[|? ?] |].
Qed.

End RouteProperties.
